(** * gocache: an in-memory cache with expiry, LRU eviction, a loader and
      single-flight loading (package [cache], file gocache.go).

    The Go program keeps a [container/list] of elements, each holding a
    pointer to a [Value], and a map from keys to list elements.  Elements and
    the [Value] they point to are created together and never separated, so
    one location stands for both.  Locations live in an explicit heap, the
    list is the sequence of its locations from front to back, and the map
    sends keys to locations, exactly as [map[interface{}]*list.Element].

    Times ([time.Time]) and durations ([time.Duration]) are integers counting
    nanoseconds; [time.Now()] is an argument of the operation that reads the
    clock.  Go's [int] status codes are integers that are only ever compared
    with 0. *)

From Stdlib Require Import ZArith Lia.
From stdpp Require Import gmap list fin_maps strings.

Open Scope Z_scope.

(** [time.Second], in nanoseconds. *)
Definition Second : Z := 1000000000.

Section Gocache.

Context {K : Type} `{Countable K}.
Context {V : Type}.
(** The variables captured by the user's loader closure. *)
Context {LS : Type}.

(** ** Data *)

Definition loc := nat.

(** [type Value struct { key; value; heartbeat }] *)
Record Value := mkValue {
  key : K;
  value : V;
  heartbeat : Z
}.

(** [type UpFunc func(key interface{}) (interface{}, int)]: an opaque Go
    function, which may read and write the variables it captured. *)
Definition UpFunc := K → LS → (V * Z) * LS.

(** [type call struct { wg; val; ret }].  [wg_done] is false between
    [wg.Add(1)] and [wg.Done()]; [val] is [nil] until the loader returned. *)
Record call := mkCall {
  wg_done : bool;
  val : option V;
  ret : Z
}.

(** [type Cache struct].  [heap] and [next] are the Go heap of list elements
    and its allocator, [calls] and [next_call] those of [call] objects;
    [g_m] is [g.m]; [upenv] is the environment of the closure [upfunc].
    The locks are not state: an operation, or a step of a goroutine, is what
    runs while a lock is held.  [initUpStatus] is never used after [New]. *)
Record Cache := mkCache {
  lru : list loc;
  heap : gmap loc Value;
  next : loc;
  data : gmap K loc;
  expire : Z;
  interval : Z;
  maxKeyCount : Z;
  upfunc : option UpFunc;
  upenv : LS;
  g_m : gmap K nat;
  calls : gmap nat call;
  next_call : nat
}.

Definition set_store (c : Cache) (l : list loc) (h : gmap loc Value)
    (n : loc) (d : gmap K loc) : Cache :=
  mkCache l h n d (expire c) (interval c) (maxKeyCount c) (upfunc c)
          (upenv c) (g_m c) (calls c) (next_call c).

Definition set_group (c : Cache) (e : LS) (m : gmap K nat)
    (cs : gmap nat call) (n : nat) : Cache :=
  mkCache (lru c) (heap c) (next c) (data c) (expire c) (interval c)
          (maxKeyCount c) (upfunc c) e m cs n.

(** ** [container/list] *)

(** [l.Remove(e)]: unlinks [e] if it is an element of [l]. *)
Definition Remove (e : loc) (l : list loc) : list loc :=
  filter (λ x, x ≠ e) l.

(** [l.MoveToFront(e)]: nothing happens unless [e] is an element of [l]. *)
Definition MoveToFront (e : loc) (l : list loc) : list loc :=
  if decide (e ∈ l) then e :: Remove e l else l.

(** [l.Back()] *)
Definition Back (l : list loc) : option loc := last l.

(** ** Construction and configuration *)

(** [New()]; the loader environment is whatever the program holds. *)
Definition New (env : LS) : Cache :=
  mkCache [] ∅ O ∅ 0 0 0 None env ∅ ∅ O.

Definition SetExpire (c : Cache) (e : Z) : Cache :=
  mkCache (lru c) (heap c) (next c) (data c) e (interval c) (maxKeyCount c)
          (upfunc c) (upenv c) (g_m c) (calls c) (next_call c).

Definition SetMaxKeyCount (c : Cache) (cnt : Z) : Cache :=
  mkCache (lru c) (heap c) (next c) (data c) (expire c) (interval c) cnt
          (upfunc c) (upenv c) (g_m c) (calls c) (next_call c).

Definition SetUpFunc (c : Cache) (f : UpFunc) : Cache :=
  mkCache (lru c) (heap c) (next c) (data c) (expire c) (interval c)
          (maxKeyCount c) (Some f) (upenv c) (g_m c) (calls c) (next_call c).

(** [SetClearInterval]: ignored below one second; the boolean tells whether
    the sweeping goroutine is started by this call. *)
Definition SetClearInterval (c : Cache) (d : Z) : Cache * bool :=
  if d <? Second then (c, false)
  else
    (mkCache (lru c) (heap c) (next c) (data c) (expire c) d (maxKeyCount c)
             (upfunc c) (upenv c) (g_m c) (calls c) (next_call c),
     interval c =? 0).

(** [Len()] is [len(c.data)]. *)
Definition Len (c : Cache) : Z := Z.of_nat (size (data c)).

(** [v.heartbeat.Add(c.expire).Before(now)] *)
Definition expired (c : Cache) (v : Value) (now : Z) : bool :=
  heartbeat v + expire c <? now.

(** ** [Put] *)

(** Lines 148-162: update in place and move to front, or allocate a new
    element, push it to the front and record it in the map. *)
Definition Put_write (c : Cache) (k : K) (v : V) (now : Z) : Cache :=
  match data c !! k with
  | Some e =>
      set_store c (MoveToFront e (lru c))
                (alter (λ vv, mkValue (key vv) v now) e (heap c))
                (next c) (data c)
  | None =>
      let e := next c in
      set_store c (e :: lru c) (<[e := mkValue k v now]> (heap c))
                (S e) (<[k := e]> (data c))
  end.

(** Lines 164-171: when a positive limit is reached, unlink the back element
    and delete its key from the map. *)
Definition Put_evict (c : Cache) : Cache :=
  if (0 <? maxKeyCount c) && (maxKeyCount c <=? Len c) then
    match Back (lru c) with
    | Some e =>
        set_store c (Remove e (lru c)) (heap c) (next c)
                  (match heap c !! e with
                   | Some v => delete (key v) (data c)
                   | None => data c
                   end)
    | None => c
    end
  else c.

Definition Put (c : Cache) (k : K) (v : V) (now : Z) : Cache :=
  Put_evict (Put_write c k v now).

(** ** [Del], [Clear] *)

Definition Del (c : Cache) (k : K) : Cache :=
  match data c !! k with
  | Some e => set_store c (Remove e (lru c)) (heap c) (next c)
                        (delete k (data c))
  | None => c
  end.

Definition Clear (c : Cache) : Cache :=
  set_store c [] (heap c) (next c) ∅.

(** ** The periodic sweep *)

(** One iteration of the loop body of [clearExpired] (lines 99-103). *)
Definition clear_one (now : Z) (c : Cache) (ke : K * loc) : Cache :=
  match heap c !! ke.2 with
  | Some v =>
      if expired c v now
      then set_store c (Remove ke.2 (lru c)) (heap c) (next c)
                     (delete ke.1 (data c))
      else c
  | None => c
  end.

(** [clearExpired], with [order] the sequence in which [range c.data]
    produces the entries (Go leaves it unspecified). *)
Definition clearExpired (order : list (K * loc)) (c : Cache) (now : Z)
    : Cache :=
  if expire c =? 0 then c else foldl (clear_one now) c order.

(** ** The loader: [upValue] and [getData] *)

(** [upValue(key)] starts a goroutine and returns; this is what the goroutine
    does when it runs.  [now] is the clock read by the [Put] it may perform.
    [Get] calls [upValue] only with a loader configured. *)
Definition upValue (c : Cache) (k : K) (now : Z) : Cache :=
  match upfunc c with
  | Some f =>
      let '((v, e), env) := f k (upenv c) in
      let c1 := set_group c env (g_m c) (calls c) (next_call c) in
      if e =? 0 then Put c1 k v now else c1
  | None => c
  end.

(** [new(call)]: the zero value. *)
Definition new_call : call := mkCall true None 0.

Definition call_at (c : Cache) (cid : nat) : call :=
  default new_call (calls c !! cid).

(** Lines 185-188: a fresh call with [wg.Add(1)], registered under [key]. *)
Definition getData_register (c : Cache) (k : K) : Cache * nat :=
  let cid := next_call c in
  (set_group c (upenv c) (<[k := cid]> (g_m c))
             (<[cid := mkCall false None 0]> (calls c)) (S cid), cid).

(** Line 190: [key_call.val, key_call.ret = c.upfunc(key)].  [getData] is
    only called with a loader configured. *)
Definition getData_load (c : Cache) (k : K) (cid : nat) : Cache :=
  match upfunc c with
  | Some f =>
      let '((v, e), env) := f k (upenv c) in
      set_group c env (g_m c)
                (<[cid := mkCall (wg_done (call_at c cid)) (Some v) e]>
                   (calls c))
                (next_call c)
  | None => c
  end.

(** Lines 191-193: [if key_call.ret == 0 { c.Put(key, key_call.val) }]. *)
Definition getData_put (c : Cache) (k : K) (cid : nat) (now : Z) : Cache :=
  if ret (call_at c cid) =? 0 then
    match val (call_at c cid) with
    | Some v => Put c k v now
    | None => c
    end
  else c.

(** Line 194: [key_call.wg.Done()]. *)
Definition getData_done (c : Cache) (cid : nat) : Cache :=
  set_group c (upenv c) (g_m c)
            (<[cid := mkCall true (val (call_at c cid)) (ret (call_at c cid))]>
               (calls c))
            (next_call c).

(** Lines 196-198: [delete(c.g.m, key)]. *)
Definition getData_forget (c : Cache) (k : K) : Cache :=
  set_group c (upenv c) (delete k (g_m c)) (calls c) (next_call c).

(** The path of [getData] that finds no call in flight (lines 185-199). *)
Definition getData_lead (c : Cache) (k : K) (now : Z)
    : (option V * Z) * Cache :=
  let '(c1, cid) := getData_register c k in
  let c2 := getData_load c1 k cid in
  let c3 := getData_put c2 k cid now in
  let c4 := getData_done c3 cid in
  let c5 := getData_forget c4 k in
  ((val (call_at c5 cid), ret (call_at c5 cid)), c5).

(** [getData] run by one goroutine while no other runs.  With a call in
    flight it waits on the call's wait group: it returns the call's fields if
    the group is done and otherwise it does not return ([None]). *)
Definition getData (c : Cache) (k : K) (now : Z)
    : option ((option V * Z) * Cache) :=
  match g_m c !! k with
  | Some cid =>
      if wg_done (call_at c cid)
      then Some ((val (call_at c cid), ret (call_at c cid)), c)
      else None
  | None => Some (getData_lead c k now)
  end.

(** ** [Get] *)

(** Line 126, [v.heartbeat = v.heartbeat.Add(time.Second * 3)], for the
    element [e] that holds [v]. *)
Definition Get_bump (c : Cache) (e : loc) (v : Value) : Cache :=
  set_store c (lru c)
    (<[e := mkValue (key v) (value v) (heartbeat v + Second * 3)]> (heap c))
    (next c) (data c).

(** What a call of [Get] produces: the returned pair, the cache when it
    returns and the key of the refresh goroutine it started, if any. *)
Record GetResult := mkGet {
  got : option V * Z;
  after : Cache;
  spawned : option K
}.

(** [Get], run without interference from other callers.  [now1] is the first
    reading of the clock on the path taken (line 122, or the [Put] of
    [getData]), [now2] the second one (line 125).

    On the path that refreshes (lines 124-130) the call [c.upValue(k)] starts
    a goroutine whose body is [upValue], and [v.value] is read on line 130,
    after the lock is released on line 129: the goroutine may have written
    the entry by then.  [race] says how far it has got when [Get] reads
    [v.value] and returns: [Some t] when it has run, its [Put] reading the
    clock as [t]; [None] when it has not, in which case it runs later, as
    [upValue] on the cache [Get] leaves.  [spawned] records the call
    [c.upValue(k)] in both cases.  The other paths start no goroutine and do
    not depend on [race].

    The result is [None] when [getData] waits for a call of another
    goroutine, and for a map entry without element, which the store
    invariant excludes. *)
Definition Get (c : Cache) (k : K) (now1 now2 : Z) (race : option Z)
    : option GetResult :=
  match data c !! k with
  | None =>
      match upfunc c with
      | Some _ =>
          match getData c k now1 with
          | Some (r, c') => Some (mkGet r c' None)
          | None => None
          end
      | None => Some (mkGet (None, -1) c None)
      end
  | Some e =>
      match heap c !! e with
      | None => None
      | Some v =>
          if negb (expire c =? 0) && expired c v now1 then
            match upfunc c with
            | Some _ =>
                if expired c v now2 then
                  let c1 := Get_bump c e v in
                  let c2 :=
                    match race with
                    | Some t => upValue c1 k t
                    | None => c1
                    end in
                  match heap c2 !! e with
                  | Some v' => Some (mkGet (Some (value v'), 0) c2 (Some k))
                  | None => None
                  end
                else Some (mkGet (Some (value v), 0) c None)
            | None => Some (mkGet (Some (value v), -1) c None)
            end
          else
            Some (mkGet (Some (value v), 0)
                    (if 0 <? maxKeyCount c
                     then set_store c (MoveToFront e (lru c)) (heap c)
                                    (next c) (data c)
                     else c)
                    None)
      end
  end.

(** ** Observations of the store *)

(** The map and the list are in one-to-one correspondence: list elements are
    distinct and allocated, the key stored in an element is mapped to that
    element, and every map entry points to a list element holding its key. *)
Record wf (c : Cache) : Prop := mkWf {
  wf_nodup : NoDup (lru c);
  wf_lru : ∀ e, e ∈ lru c →
    ∃ v, heap c !! e = Some v ∧ data c !! key v = Some e;
  wf_data : ∀ k e, data c !! k = Some e →
    e ∈ lru c ∧ ∃ v, heap c !! e = Some v ∧ key v = k;
  wf_next : ∀ e, is_Some (heap c !! e) → (e < next c)%nat
}.

(** The entry store proper: list, elements, allocator and map. *)
Definition store (c : Cache)
    : list loc * gmap loc Value * loc * gmap K loc :=
  (lru c, heap c, next c, data c).

(** The entry stored for a key: the [Value] behind [c.data[k]]. *)
Definition entry (c : Cache) (k : K) : option Value :=
  data c !! k ≫= λ e, heap c !! e.

(** The heartbeat of the entry of a key. *)
Definition heartbeat_of (c : Cache) (k : K) : option Z :=
  heartbeat <$> entry c k.

(** The keys of the list, from most to least recently touched. *)
Definition keys_by_recency (c : Cache) : list K :=
  omap (λ e, key <$> heap c !! e) (lru c).

(** Whether the element at a location has expired at [now]. *)
Definition stale_at (c : Cache) (now : Z) (e : loc) : bool :=
  match heap c !! e with
  | Some v => expired c v now
  | None => false
  end.

(** Whether the sweep, ranging over [order], meets the element [x] expired. *)
Definition swept (c : Cache) (now : Z) (order : list (K * loc)) (x : loc)
    : bool :=
  existsb (λ ke, bool_decide (ke.2 = x) && stale_at c now ke.2) order.

(** Inserting keys one after the other, the clock advancing by one tick. *)
Fixpoint Put_all (c : Cache) (kvs : list (K * V)) (now : Z) : Cache :=
  match kvs with
  | [] => c
  | (k, v) :: rest => Put_all (Put c k v now) rest (now + 1)
  end.

(** The operations that write heartbeats, each with the clock readings it
    makes: a [Put], a [Get], and the write-back of a background refresh.
    The refresh goroutine that a [Get] starts is an operation of its own,
    [OpRefresh]: a [Get] that returns after its goroutine has run leaves the
    cache of the [OpGet] followed by that [OpRefresh] (lemma [Get_race]). *)
Inductive op :=
| OpPut (k : K) (v : V) (now : Z)
| OpGet (k : K) (now1 now2 : Z)
| OpRefresh (k : K) (now : Z).

Definition run_op (c : Cache) (o : op) : Cache :=
  match o with
  | OpPut k v now => Put c k v now
  | OpGet k now1 now2 =>
      match Get c k now1 now2 None with
      | Some r => after r
      | None => c
      end
  | OpRefresh k now => upValue c k now
  end.

(** The clock reading that an operation stores as the heartbeat of key [k],
    if it writes that key: [Put] and the refresh write-back do. *)
Definition writes_at (o : op) (k : K) : option Z :=
  match o with
  | OpPut k' _ now => if decide (k' = k) then Some now else None
  | OpRefresh k' now => if decide (k' = k) then Some now else None
  | OpGet _ _ _ => None
  end.

(** The caches reached from [c0] by using the cache without configuring it
    again: [Put], [Get], refresh write-backs, [Del], [Clear] and sweeps. *)
Inductive reachable (c0 : Cache) : Cache → Prop :=
| reach_start : reachable c0 c0
| reach_op c o : reachable c0 c → reachable c0 (run_op c o)
| reach_Del c k : reachable c0 c → reachable c0 (Del c k)
| reach_Clear c : reachable c0 c → reachable c0 (Clear c)
| reach_sweep c order now :
    reachable c0 c → order ≡ₚ map_to_list (data c) →
    reachable c0 (clearExpired order c now).

(** ** Goroutines calling [getData] concurrently

    Each goroutine runs [getData(key)] for the same key, having found the key
    absent in [Get].  A goroutine is at one of the points between which it
    holds no lock; a step runs it to the next such point.  [g.mu] makes lines
    176-188 and 196-198 atomic and the store lock makes [Put] atomic. *)

Inductive pc :=
| AtEnter                       (* before line 176 *)
| AtWait (cid : nat)            (* line 182, [key_call.wg.Wait()] *)
| AtLoad (cid : nat)            (* line 190 *)
| AtPut (cid : nat)             (* line 191 *)
| AtDone (cid : nat)            (* line 194 *)
| AtForget (cid : nat)          (* line 196 *)
| Returned (r : option V * Z).

(** The shared cache, the goroutines, and how often the loader has run. *)
Record machine := mkMachine {
  shared : Cache;
  threads : list pc;
  loads : nat
}.

(** One step of a goroutine: the cache afterwards, its next point and the
    number of loader invocations made.  [None]: it cannot move (it waits for
    a wait group that is not done, or it has returned). *)
Definition thread_step (k : K) (now : Z) (c : Cache) (p : pc)
    : option (Cache * pc * nat) :=
  match p with
  | AtEnter =>
      match g_m c !! k with
      | Some cid => Some (c, AtWait cid, O)
      | None => let '(c1, cid) := getData_register c k in
                Some (c1, AtLoad cid, O)
      end
  | AtWait cid =>
      if wg_done (call_at c cid)
      then Some (c, Returned (val (call_at c cid), ret (call_at c cid)), O)
      else None
  | AtLoad cid => Some (getData_load c k cid, AtPut cid, 1%nat)
  | AtPut cid => Some (getData_put c k cid now, AtDone cid, O)
  | AtDone cid => Some (getData_done c cid, AtForget cid, O)
  | AtForget cid =>
      let c1 := getData_forget c k in
      Some (c1, Returned (val (call_at c1 cid), ret (call_at c1 cid)), O)
  | Returned _ => None
  end.

(** The scheduler picks goroutine [tn.1], which reads the clock as [tn.2]. *)
Definition sched_step (k : K) (m : machine) (tn : nat * Z) : machine :=
  match threads m !! tn.1 with
  | Some p =>
      match thread_step k tn.2 (shared m) p with
      | Some (c', p', n) =>
          mkMachine c' (<[tn.1 := p']> (threads m)) (loads m + n)
      | None => m
      end
  | None => m
  end.

Definition run (k : K) (m : machine) (s : list (nat * Z)) : machine :=
  foldl (sched_step k) m s.

(** [n] goroutines about to enter [getData]; the loader has not run. *)
Definition start (c : Cache) (n : nat) : machine :=
  mkMachine c (replicate n AtEnter) O.

Definition returned (p : pc) : option (option V * Z) :=
  match p with Returned r => Some r | _ => None end.

Definition all_returned (m : machine) : Prop :=
  ∀ p, p ∈ threads m → is_Some (returned p).

Definition entering (p : pc) : bool :=
  match p with AtEnter => true | _ => false end.

(** A goroutine is late in [m]: it has yet to enter [getData] although a
    call registered since the start (the cache was [c0] then) is no longer
    tracked in [g.m]. *)
Definition late (c0 : Cache) (k : K) (m : machine) : bool :=
  bool_decide (g_m (shared m) !! k = None)
  && negb (next_call (shared m) =? next_call c0)%nat
  && existsb entering (threads m).

(** No goroutine is ever late along the run of schedule [s] from [m]. *)
Fixpoint timely (c0 : Cache) (k : K) (m : machine) (s : list (nat * Z))
    : bool :=
  negb (late c0 k m)
  && match s with
     | [] => true
     | tn :: s' => timely c0 k (sched_step k m tn) s'
     end.

(** The states of a run in which a single call is shared.  [cid] is the call
    and [r] the pair its loader invocation returns.  The goroutine that
    registered the call leads; the others follow, and can only have returned
    once the leader has passed [wg.Done()]. *)
Definition finished (p : pc) : bool :=
  match p with AtForget _ | Returned _ => true | _ => false end.

Definition follows (cid : nat) (r : option V * Z) (fin : bool) (p : pc)
    : Prop :=
  p = AtEnter ∨ p = AtWait cid ∨ (p = Returned r ∧ fin = true).

Definition leads (c0 c : Cache) (k : K) (cid : nat) (r : option V * Z)
    (n : nat) (p : pc) : Prop :=
  match p with
  | AtLoad cid' =>
      cid' = cid ∧ g_m c !! k = Some cid ∧ n = O ∧ upenv c = upenv c0 ∧
      calls c !! cid = Some (mkCall false None 0)
  | AtPut cid' | AtDone cid' =>
      cid' = cid ∧ g_m c !! k = Some cid ∧ n = 1%nat ∧
      calls c !! cid = Some (mkCall false r.1 r.2)
  | AtForget cid' =>
      cid' = cid ∧ g_m c !! k = Some cid ∧ n = 1%nat ∧
      calls c !! cid = Some (mkCall true r.1 r.2)
  | Returned r' =>
      r' = r ∧ g_m c !! k = None ∧ n = 1%nat ∧
      calls c !! cid = Some (mkCall true r.1 r.2)
  | AtEnter | AtWait _ => False
  end.

Definition shared_call (c0 : Cache) (k : K) (r : option V * Z)
    (m : machine) : Prop :=
  upfunc (shared m) = upfunc c0 ∧
  ((next_call (shared m) = next_call c0 ∧
    g_m (shared m) !! k = None ∧
    upenv (shared m) = upenv c0 ∧
    loads m = O ∧
    ∀ p, p ∈ threads m → p = AtEnter)
   ∨
   (next_call (shared m) = S (next_call c0) ∧
    ∃ i pl, threads m !! i = Some pl ∧
            leads c0 (shared m) k (next_call c0) r (loads m) pl ∧
            ∀ j p, j ≠ i → threads m !! j = Some p →
                   follows (next_call c0) r (finished pl) p)).

(** How many steps a goroutine at [p] has left at most. *)
Definition rank (p : pc) : nat :=
  match p with
  | AtEnter => 5
  | AtLoad _ => 4
  | AtPut _ => 3
  | AtDone _ => 2
  | AtForget _ | AtWait _ => 1
  | Returned _ => 0
  end.

(** Every use of a cache, configuration included. *)
Inductive used (c0 : Cache) : Cache → Prop :=
| used_start : used c0 c0
| used_op c o : used c0 c → used c0 (run_op c o)
| used_Del c k : used c0 c → used c0 (Del c k)
| used_Clear c : used c0 c → used c0 (Clear c)
| used_sweep c order now :
    used c0 c → order ≡ₚ map_to_list (data c) →
    used c0 (clearExpired order c now)
| used_SetExpire c e : used c0 c → used c0 (SetExpire c e)
| used_SetMaxKeyCount c cnt : used c0 c → used c0 (SetMaxKeyCount c cnt)
| used_SetUpFunc c f : used c0 c → used c0 (SetUpFunc c f)
| used_SetClearInterval c d :
    used c0 c → used c0 (SetClearInterval c d).1.

(** Calls of [SetClearInterval] one after the other; the number counts the
    sweeping goroutines started. *)
Definition SetClearInterval_all (c : Cache) (ds : list Z) : Cache * nat :=
  foldl (λ cn d, let '(c', b) := SetClearInterval cn.1 d in
                 (c', if b then S cn.2 else cn.2))
        (c, O) ds.

(** The call a goroutine is working on: it has registered the call and has
    not yet removed it from [g.m] (lines 189-196). *)
Definition leading (p : pc) : option nat :=
  match p with
  | AtLoad cid | AtPut cid | AtDone cid | AtForget cid => Some cid
  | AtEnter | AtWait _ | Returned _ => None
  end.

(** The goroutines that may still run the loader. *)
Fixpoint may_load (ts : list pc) : nat :=
  match ts with
  | [] => O
  | (AtEnter | AtLoad _) :: ts' => S (may_load ts')
  | _ :: ts' => may_load ts'
  end.

(** At most one call per key is in flight: [g.m] tracks a call exactly while
    one goroutine, and only one, works on it. *)
Definition one_in_flight (k : K) (m : machine) : Prop :=
  match g_m (shared m) !! k with
  | None => ∀ p, p ∈ threads m → leading p = None
  | Some cid =>
      ∃ i p, threads m !! i = Some p ∧ leading p = Some cid ∧
             ∀ j q, j ≠ i → threads m !! j = Some q → leading q = None
  end.

(** A bound on the number of steps all goroutines together have left. *)
Fixpoint sum_rank (ts : list pc) : nat :=
  match ts with
  | [] => O
  | p :: ts' => (rank p + sum_rank ts')%nat
  end.

Definition total_rank (m : machine) : nat := sum_rank (threads m).

End Gocache.

(** * Concrete caches

    Keys and values are strings, as in the tests of the repository; the
    loaders count their own invocations in the variable they capture. *)

Abbreviation SCache := (Cache (K:=string) (V:=string) (LS:=nat)).

(** [GetDataSucc] of gocache_test.go, with an invocation counter. *)
Definition GetDataSucc : UpFunc (K:=string) (V:=string) (LS:=nat) :=
  λ k n, ((k +:+ "_value", 0), S n).

(** A loader that reports a failure. *)
Definition GetDataFail : UpFunc (K:=string) (V:=string) (LS:=nat) :=
  λ k n, (("not get", 1), S n).

(** A loader whose value tells whether it ran before. *)
Definition GetDataOnce : UpFunc (K:=string) (V:=string) (LS:=nat) :=
  λ k n, ((match n with O => "first" | S _ => "again" end, 0), S n).

(** [SetMaxKeyCount(2)], then three distinct keys. *)
Definition demo_three_of_two : SCache :=
  Put_all (SetMaxKeyCount (New O) 2) [("a", "1"); ("b", "2"); ("c", "3")] 0.

(** [SetExpire(time.Second)], [SetMaxKeyCount(1)], then [Put("a", "1")]. *)
Definition demo_limit_one : SCache :=
  Put (SetMaxKeyCount (SetExpire (New O) Second) 1) "a" "1" 0.

(** Three keys in a cache without limit, then [SetMaxKeyCount(1)]. *)
Definition demo_late_limit : SCache :=
  SetMaxKeyCount
    (Put_all (New O) [("a", "1"); ("b", "2"); ("c", "3")] 0) 1.

(** Two keys in a cache without limit, then [SetMaxKeyCount(2)]. *)
Definition demo_full : SCache :=
  SetMaxKeyCount (Put_all (New O) [("a", "1"); ("b", "2")] 0) 2.

(** One key under a limit of three. *)
Definition demo_room : SCache :=
  Put (SetMaxKeyCount (New O) 3) "a" "1" 0.

(** [SetExpire(time.Second)], [SetUpFunc(GetDataSucc)], [Put("a", "1")] at
    time 0. *)
Definition demo_loader : SCache :=
  Put (SetUpFunc (SetExpire (New O) Second) GetDataSucc) "a" "1" 0.

(** The same cache after a [Get("a")] one and a half seconds later. *)
Definition demo_loader_bumped : SCache :=
  run_op demo_loader (OpGet "a" 1500000000 1500000000).

(** [SetExpire(time.Second)], [Put("a", "1")] at time 0, no loader. *)
Definition demo_plain : SCache :=
  Put (SetExpire (New O) Second) "a" "1" 0.

(** [SetUpFunc(GetDataSucc)], [SetMaxKeyCount(1)], no entry. *)
Definition demo_loader_limit_one : SCache :=
  SetMaxKeyCount (SetUpFunc (New O) GetDataSucc) 1.

(** A cache whose loader fails. *)
Definition demo_failing : SCache :=
  SetUpFunc (SetExpire (New O) Second) GetDataFail.

(** Two keys written at times 0 and 1, with a time-to-live of 5 ns. *)
Definition demo_sweep : SCache :=
  Put_all (SetExpire (New O) 5) [("a", "1"); ("b", "2")] 0.

(** An empty cache with the loader [GetDataOnce]. *)
Definition demo_once : SCache := SetUpFunc (New O) GetDataOnce.

(** Goroutine 0 runs [getData] to its end before goroutine 1 enters. *)
Definition sched_one_after_the_other : list (nat * Z) :=
  [(0%nat, 1); (0%nat, 1); (0%nat, 1); (0%nat, 1); (0%nat, 1);
   (1%nat, 2); (1%nat, 2); (1%nat, 2); (1%nat, 2); (1%nat, 2)].

(** Three goroutines; all enter before goroutine 0 finishes. *)
Definition sched_overlapping : list (nat * Z) :=
  [(0%nat, 1); (1%nat, 1); (2%nat, 1); (0%nat, 1); (1%nat, 1);
   (0%nat, 2); (0%nat, 2); (2%nat, 2); (0%nat, 2); (1%nat, 2)].

(** A new cache with a time-to-live of one second. *)
Definition demo_ttl : SCache := SetExpire (New O) Second.

(** A new cache with a limit of three. *)
Definition demo_limit_three : SCache := SetMaxKeyCount (New O) 3.

(** A cache with a loader, a time-to-live of one second and no entry. *)
Definition demo_empty_loader : SCache :=
  SetUpFunc (SetExpire (New O) Second) GetDataSucc.

(** * The store invariant: the map and the list describe the same entries *)

Section Store.

Context {K : Type} `{Countable K} {V LS : Type}.
Implicit Types (c : Cache (K:=K) (V:=V) (LS:=LS)) (l : list loc) (e x : loc).

(** ** List operations *)

Lemma elem_of_Remove e l x : x ∈ Remove e l ↔ x ≠ e ∧ x ∈ l.
Proof. unfold Remove. by rewrite list_elem_of_filter. Qed.

Lemma NoDup_Remove e l : NoDup l → NoDup (Remove e l).
Proof. apply NoDup_filter. Qed.

Lemma Remove_notin e l : e ∉ l → Remove e l = l.
Proof.
  unfold Remove. induction l as [|y l IH]; intros Hn; [done|].
  rewrite filter_cons. apply not_elem_of_cons in Hn as [Hne Hn].
  rewrite decide_True by congruence. f_equal. by apply IH.
Qed.

Lemma Remove_singleton e : Remove e [e] = [].
Proof.
  unfold Remove. rewrite filter_cons. by rewrite decide_False by tauto.
Qed.

Lemma length_Remove e l :
  NoDup l → e ∈ l → S (length (Remove e l)) = length l.
Proof.
  unfold Remove. induction l as [|y l IH]; intros Hnd Hin.
  - by apply elem_of_nil in Hin.
  - apply NoDup_cons in Hnd as [Hy Hnd]. rewrite filter_cons.
    destruct (decide (y = e)) as [->|Hne].
    + rewrite decide_False by (intros ?; congruence).
      fold (Remove e l). rewrite Remove_notin by done. done.
    + rewrite decide_True by done. simpl. f_equal. apply IH; [done|].
      apply elem_of_cons in Hin as [?|?]; [congruence|done].
Qed.

Lemma elem_of_MoveToFront e l x : x ∈ MoveToFront e l ↔ x ∈ l.
Proof.
  unfold MoveToFront. case_decide; [|done].
  rewrite elem_of_cons, elem_of_Remove.
  destruct (decide (x = e)) as [->|Hne]; intuition congruence.
Qed.

Lemma NoDup_MoveToFront e l : NoDup l → NoDup (MoveToFront e l).
Proof.
  intros Hnd. unfold MoveToFront. case_decide; [|done].
  apply NoDup_cons. split; [|by apply NoDup_Remove].
  rewrite elem_of_Remove. tauto.
Qed.

Lemma length_MoveToFront e l :
  NoDup l → length (MoveToFront e l) = length l.
Proof.
  intros Hnd. unfold MoveToFront. case_decide; [|done].
  simpl. by apply length_Remove.
Qed.

Lemma Back_elem_of l e : Back l = Some e → e ∈ l.
Proof. apply last_Some_elem_of. Qed.

(** ** The invariant holds initially and is kept by every operation *)

Lemma wf_New (env : LS) : wf (New (K:=K) (V:=V) env).
Proof.
  split; simpl.
  - apply NoDup_nil_2.
  - intros e He. by apply elem_of_nil in He.
  - intros k e He. by rewrite lookup_empty in He.
  - intros e [v He]. by rewrite lookup_empty in He.
Qed.

Lemma wf_inj c k1 k2 e :
  wf c → data c !! k1 = Some e → data c !! k2 = Some e → k1 = k2.
Proof.
  intros Hwf Ha Hb.
  destruct (wf_data c Hwf _ _ Ha) as (_ & v1 & Hv1 & Hk1).
  destruct (wf_data c Hwf _ _ Hb) as (_ & v2 & Hv2 & Hk2).
  congruence.
Qed.

(** The number of map entries is the length of the list. *)
Lemma wf_size c : wf c → size (data c) = length (lru c).
Proof.
  intros Hwf. rewrite <- length_map_to_list.
  rewrite <- (length_fmap snd (map_to_list (data c))).
  apply Permutation_length, NoDup_Permutation.
  - apply NoDup_fmap_2_strong; [|apply NoDup_map_to_list].
    intros [k1 e1] [k2 e2] Ha Hb Heq. simpl in Heq. subst e2.
    apply elem_of_map_to_list in Ha, Hb.
    f_equal. eapply wf_inj; eauto.
  - apply Hwf.
  - intros e. rewrite list_elem_of_fmap. split.
    + intros ([k e'] & -> & Hin). apply elem_of_map_to_list in Hin.
      by apply (wf_data c Hwf) in Hin as [? _].
    + intros Hin. destruct (wf_lru c Hwf _ Hin) as (v & Hv & Hd).
      exists (key v, e). split; [done|]. by apply elem_of_map_to_list.
Qed.

Lemma wf_Len c : wf c → Len c = Z.of_nat (length (lru c)).
Proof. intros Hwf. unfold Len. by rewrite wf_size. Qed.

Lemma wf_Put_write c k v now : wf c → wf (Put_write c k v now).
Proof.
  intros Hwf. unfold Put_write.
  destruct (data c !! k) as [e|] eqn:Hk.
  - destruct (wf_data c Hwf _ _ Hk) as (Hin & v0 & Hv0 & Hkey).
    split; simpl.
    + apply NoDup_MoveToFront, Hwf.
    + intros x Hx. apply elem_of_MoveToFront in Hx.
      destruct (wf_lru c Hwf _ Hx) as (vx & Hvx & Hdx).
      rewrite lookup_alter. case_decide as Hd.
      * subst x. rewrite Hvx. simpl. eauto.
      * eauto.
    + intros k' x Hx. rewrite elem_of_MoveToFront.
      destruct (wf_data c Hwf _ _ Hx) as (Hxin & vx & Hvx & Hkx).
      split; [done|]. rewrite lookup_alter. case_decide as Hd.
      * subst x. rewrite Hvx. simpl. eauto.
      * eauto.
    + intros x Hx. apply (wf_next c Hwf).
      rewrite lookup_alter in Hx. case_decide; [subst|done].
      by apply fmap_is_Some in Hx.
  - assert (Hfresh : next c ∉ lru c).
    { intros Hin. destruct (wf_lru c Hwf _ Hin) as (vx & Hvx & _).
      assert (next c < next c)%nat by (apply (wf_next c Hwf); eauto). lia. }
    split; simpl.
    + apply NoDup_cons. split; [done|apply Hwf].
    + intros x Hx. apply elem_of_cons in Hx as [->|Hx].
      * rewrite lookup_insert_eq. eexists. split; [done|].
        simpl. by rewrite lookup_insert_eq.
      * destruct (wf_lru c Hwf _ Hx) as (vx & Hvx & Hdx).
        rewrite lookup_insert_ne by (intros <-; done).
        exists vx. split; [done|].
        rewrite lookup_insert_ne by (intros ->; congruence). done.
    + intros k' x Hx. rewrite lookup_insert in Hx. case_decide as Hd.
      * inversion Hx; subst. split; [apply elem_of_cons; by left|].
        rewrite lookup_insert_eq. eauto.
      * destruct (wf_data c Hwf _ _ Hx) as (Hxin & vx & Hvx & Hkx).
        split; [apply elem_of_cons; by right|].
        rewrite lookup_insert_ne by (intros <-; done). eauto.
    + intros x Hx. rewrite lookup_insert in Hx. case_decide.
      * subst. lia.
      * apply (wf_next c Hwf) in Hx. lia.
Qed.

(** Unlinking an element and deleting its key keeps the invariant. *)
Lemma wf_unlink c e v :
  wf c → e ∈ lru c → heap c !! e = Some v →
  wf (set_store c (Remove e (lru c)) (heap c) (next c)
                (delete (key v) (data c))).
Proof.
  intros Hwf He Hv. split; simpl.
  - apply NoDup_Remove, Hwf.
  - intros x Hx. apply elem_of_Remove in Hx as [Hne Hx].
    destruct (wf_lru c Hwf _ Hx) as (vx & Hvx & Hdx).
    exists vx. split; [done|]. rewrite lookup_delete_ne; [done|].
    intros Heq. destruct (wf_lru c Hwf _ He) as (v' & Hv' & Hd').
    assert (v' = v) by congruence. subst v'. congruence.
  - intros k x Hx. rewrite lookup_delete in Hx. case_decide as Hd; [done|].
    destruct (wf_data c Hwf _ _ Hx) as (Hxin & vx & Hvx & Hkx).
    split; [|eauto]. apply elem_of_Remove. split; [|done].
    intros ->. congruence.
  - apply Hwf.
Qed.

Lemma wf_Put_evict c : wf c → wf (Put_evict c).
Proof.
  intros Hwf. unfold Put_evict.
  destruct (_ && _); [|done].
  destruct (Back (lru c)) as [e|] eqn:Hb; [|done].
  apply Back_elem_of in Hb.
  destruct (wf_lru c Hwf _ Hb) as (v & Hv & _).
  rewrite Hv. by apply wf_unlink.
Qed.

Lemma wf_Put c k v now : wf c → wf (Put c k v now).
Proof. intros. by apply wf_Put_evict, wf_Put_write. Qed.

Lemma wf_Del c k : wf c → wf (Del c k).
Proof.
  intros Hwf. unfold Del. destruct (data c !! k) as [e|] eqn:Hk; [|done].
  destruct (wf_data c Hwf _ _ Hk) as (He & v & Hv & <-).
  by apply wf_unlink.
Qed.

Lemma wf_Clear c : wf c → wf (Clear c).
Proof.
  intros Hwf. split; simpl.
  - apply NoDup_nil_2.
  - intros e He. by apply elem_of_nil in He.
  - intros k e He. by rewrite lookup_empty in He.
  - apply Hwf.
Qed.

(** ** What [Put] does to an entry *)

Lemma entry_Some c k v :
  entry c k = Some v ↔ ∃ e, data c !! k = Some e ∧ heap c !! e = Some v.
Proof.
  unfold entry. destruct (data c !! k) as [e|]; simpl.
  - split; [by eauto|]. intros (e' & He & Hv). congruence.
  - split; [done|]. intros (e' & He & _). done.
Qed.

Lemma entry_key c k v : wf c → entry c k = Some v → key v = k.
Proof.
  intros Hwf (e & He & Hv)%entry_Some.
  destruct (wf_data c Hwf _ _ He) as (_ & v' & Hv' & Hk). congruence.
Qed.

Lemma entry_Put_write c k' k v now :
  wf c →
  entry (Put_write c k' v now) k =
    if decide (k' = k) then Some (mkValue k v now) else entry c k.
Proof.
  intros Hwf. unfold Put_write, entry.
  destruct (data c !! k') as [e|] eqn:Hk'; simpl.
  - destruct (wf_data c Hwf _ _ Hk') as (_ & v0 & Hv0 & Hkey).
    case_decide as Hd.
    + rewrite <- Hd, Hk'. simpl. rewrite lookup_alter.
      rewrite decide_True by done. rewrite Hv0. simpl. by rewrite Hkey.
    + destruct (data c !! k) as [x|] eqn:Hk; simpl; [|done].
      rewrite lookup_alter. rewrite decide_False; [done|].
      intros ->. apply Hd. eapply wf_inj; eauto.
  - rewrite lookup_insert. case_decide as Hd.
    + simpl. rewrite lookup_insert_eq. by subst.
    + destruct (data c !! k) as [x|] eqn:Hk; simpl; [|done].
      rewrite lookup_insert_ne; [done|]. intros <-.
      destruct (wf_data c Hwf _ _ Hk) as (_ & vx & Hvx & _).
      assert (next c < next c)%nat by (apply (wf_next c Hwf); eauto). lia.
Qed.

(** Eviction leaves an entry as it is or removes it. *)
Lemma entry_Put_evict c k :
  entry (Put_evict c) k = entry c k ∨ entry (Put_evict c) k = None.
Proof.
  unfold Put_evict. destruct (_ && _); [|by left].
  destruct (Back (lru c)) as [b|]; [|by left].
  unfold entry. simpl. destruct (heap c !! b) as [vb|]; [|by left].
  rewrite lookup_delete. case_decide; [by right|by left].
Qed.

Lemma entry_Put c k' k v now :
  wf c →
  entry (Put c k' v now) k = None ∨
  entry (Put c k' v now) k =
    if decide (k' = k) then Some (mkValue k v now) else entry c k.
Proof.
  intros Hwf. unfold Put.
  destruct (entry_Put_evict (Put_write c k' v now) k) as [Heq|Heq].
  - right. by rewrite Heq, entry_Put_write.
  - by left.
Qed.

(** An element at the front of a list of at least two distinct elements is
    not at its back. *)
Lemma Back_cons_ne x l : NoDup (x :: l) → l ≠ [] → Back (x :: l) ≠ Some x.
Proof.
  intros Hnd Hl Hb. destruct l as [|y l]; [done|].
  unfold Back in Hb. rewrite last_cons_cons in Hb.
  apply last_Some_elem_of in Hb. by apply NoDup_cons in Hnd as [? _].
Qed.

(** The written key is at the front of the list after [Put_write]. *)
Lemma Put_write_front c k v now :
  wf c →
  ∃ e l, lru (Put_write c k v now) = e :: l ∧
         data (Put_write c k v now) !! k = Some e ∧
         length (e :: l) = size (data (Put_write c k v now)).
Proof.
  intros Hwf. pose proof (wf_Put_write c k v now Hwf) as Hwf'.
  pose proof (wf_size _ Hwf') as Hsz. revert Hsz. unfold Put_write.
  destruct (data c !! k) as [e|] eqn:Hk; simpl; intros Hsz.
  - destruct (wf_data c Hwf _ _ Hk) as (Hin & _).
    unfold MoveToFront in *. rewrite decide_True in * by done. eauto.
  - exists (next c), (lru c). by rewrite lookup_insert_eq.
Qed.

End Store.

(** * Properties of the operations *)

Section Operations.

Context {K : Type} `{Countable K} {V LS : Type}.
Implicit Types (c : Cache (K:=K) (V:=V) (LS:=LS)) (l : list loc) (e x : loc).

(** ** [Get] on an expired entry *)

(** C6. With no loader configured, [Get] on a key whose entry has expired
    (a time-to-live is configured and heartbeat plus time-to-live is before
    the clock reading) returns the value stored in the entry together with
    the status -1, and leaves the cache as it was. *)
Theorem Get_expired_no_loader c k v now1 now2 race :
  entry c k = Some v →
  expire c ≠ 0 →
  heartbeat v + expire c < now1 →
  upfunc c = None →
  Get c k now1 now2 race = Some (mkGet (Some (value v), -1) c None).
Proof.
  intros (e & He & Hv)%entry_Some Hexp Hlt Hup.
  unfold Get, expired. rewrite He, Hv, Hup.
  rewrite (proj2 (Z.eqb_neq _ _) Hexp). simpl.
  by rewrite (proj2 (Z.ltb_lt _ _) Hlt).
Qed.

(** ** Eviction in [Put] *)

Lemma Put_evict_skip c :
  ¬ (0 < maxKeyCount c ∧ maxKeyCount c ≤ Len c) → Put_evict c = c.
Proof.
  intros Hn. unfold Put_evict.
  destruct (0 <? maxKeyCount c) eqn:Ha; [|done].
  destruct (maxKeyCount c <=? Len c) eqn:Hb; [|done].
  apply Z.ltb_lt in Ha. apply Z.leb_le in Hb. tauto.
Qed.

(** When the limit is reached the back element, and only it, goes. *)
Lemma Put_evict_spec c :
  wf c → 0 < maxKeyCount c → maxKeyCount c ≤ Len c →
  ∃ b vb, Back (lru c) = Some b ∧ heap c !! b = Some vb ∧
          data c !! key vb = Some b ∧
          Put_evict c = set_store c (Remove b (lru c)) (heap c) (next c)
                                  (delete (key vb) (data c)) ∧
          Len (Put_evict c) = Len c - 1.
Proof.
  intros Hwf Hpos Hle. unfold Put_evict.
  rewrite (proj2 (Z.ltb_lt _ _) Hpos), (proj2 (Z.leb_le _ _) Hle). simpl.
  destruct (Back (lru c)) as [b|] eqn:Hb.
  - destruct (wf_lru c Hwf b (Back_elem_of _ _ Hb)) as (vb & Hvb & Hdb).
    exists b, vb. rewrite Hvb. split_and!; try done.
    unfold Len. simpl. rewrite map_size_delete_Some by eauto.
    assert (size (data c) ≠ O).
    { intros Hz. apply map_size_empty_inv in Hz. rewrite Hz in Hdb.
      by rewrite lookup_empty in Hdb. }
    lia.
  - apply last_None in Hb. rewrite wf_Len, Hb in Hle by done.
    simpl in Hle. lia.
Qed.

(** C10. A [Put] on a key that is already stored, in a cache whose positive
    limit is reached by the current size, still removes the back element of
    the list: the entry count drops by one, and the removed entry is the
    one just updated when it is the only one, and another key's entry
    otherwise. *)
Theorem Put_update_evicts_back c k e v now :
  wf c →
  data c !! k = Some e →
  0 < maxKeyCount c →
  maxKeyCount c ≤ Len c →
  ∃ b vb, Back (lru (Put_write c k v now)) = Some b ∧
          heap (Put_write c k v now) !! b = Some vb ∧
          lru (Put c k v now) = Remove b (MoveToFront e (lru c)) ∧
          data (Put c k v now) = delete (key vb) (data c) ∧
          data c !! key vb = Some b ∧
          Len (Put c k v now) = Len c - 1 ∧
          (lru c = [e] →
             key vb = k ∧ entry (Put c k v now) k = None) ∧
          (lru c ≠ [e] →
             key vb ≠ k ∧ entry (Put c k v now) k = Some (mkValue k v now)).
Proof.
  intros Hwf Hk Hpos Hle.
  pose proof (wf_Put_write c k v now Hwf) as Hwf'.
  assert (Hw : Put_write c k v now =
               set_store c (MoveToFront e (lru c))
                 (alter (λ vv, mkValue (key vv) v now) e (heap c))
                 (next c) (data c)).
  { unfold Put_write. by rewrite Hk. }
  assert (HL : Len (Put_write c k v now) = Len c) by by rewrite Hw.
  assert (HM : maxKeyCount (Put_write c k v now) = maxKeyCount c)
    by by rewrite Hw.
  destruct (Put_evict_spec (Put_write c k v now)) as
    (b & vb & Hb & Hvb & Hdb & Hev & Hlen); [done|lia|lia|].
  exists b, vb. unfold Put. rewrite Hev.
  destruct (wf_data c Hwf _ _ Hk) as (Hin & v0 & Hv0 & Hkey).
  assert (He : entry (Put_write c k v now) k = Some (mkValue k v now)).
  { rewrite entry_Put_write by done. by rewrite decide_True. }
  split_and!; try done.
  - by rewrite Hw.
  - by rewrite Hw.
  - by rewrite Hw in Hdb.
  - unfold Put in Hlen. rewrite Hev in Hlen. lia.
  - intros Hl. rewrite Hw in Hb, Hvb. simpl in Hb, Hvb.
    unfold MoveToFront in Hb. rewrite decide_True in Hb by done.
    rewrite Hl, Remove_singleton in Hb. simpl in Hb. injection Hb as <-.
    rewrite lookup_alter, decide_True, Hv0 in Hvb by done.
    injection Hvb as <-. simpl. split; [done|].
    unfold entry. simpl. rewrite Hw. simpl. by rewrite Hkey, lookup_delete_eq.
  - intros Hl.
    assert (Hbe : b ≠ e).
    { intros ->. rewrite Hw in Hb. simpl in Hb, Hwf'.
      pose proof (wf_nodup _ Hwf') as Hnd. rewrite Hw in Hnd. simpl in Hnd.
      unfold MoveToFront in Hb, Hnd. rewrite decide_True in Hb, Hnd by done.
      revert Hb. apply Back_cons_ne; [done|].
      intros Hnil. apply Hl.
      pose proof (length_Remove e (lru c) (wf_nodup c Hwf) Hin) as Hlr.
      rewrite Hnil in Hlr. simpl in Hlr.
      destruct (lru c) as [|y [|z t]]; simpl in Hlr; try done.
      apply list_elem_of_singleton in Hin. by subst. }
    assert (Hkb : key vb ≠ k).
    { intros Heq. rewrite Heq in Hdb. rewrite Hw in Hdb. simpl in Hdb.
      congruence. }
    split; [done|]. revert He. unfold entry. simpl.
    rewrite lookup_delete_ne by done. done.
Qed.

(** If the limit is not 1 the entry just written is still there after the
    eviction step. *)
Lemma entry_Put_same c k v now :
  wf c → maxKeyCount c ≠ 1 →
  entry (Put c k v now) k = Some (mkValue k v now).
Proof.
  intros Hwf Hne.
  pose proof (wf_Put_write c k v now Hwf) as Hwf'.
  assert (He : entry (Put_write c k v now) k = Some (mkValue k v now)).
  { rewrite entry_Put_write by done. by rewrite decide_True. }
  assert (HM : maxKeyCount (Put_write c k v now) = maxKeyCount c).
  { unfold Put_write. by destruct (data c !! k). }
  unfold Put.
  destruct (decide (0 < maxKeyCount c ∧
                    maxKeyCount c ≤ Len (Put_write c k v now))) as [[Ha Hb]|Hn].
  - destruct (Put_evict_spec (Put_write c k v now)) as
      (b & vb & Hb' & Hvb & Hdb & Hev & Hlen); [done|lia|lia|].
    rewrite Hev. destruct (Put_write_front c k v now Hwf) as
      (e & l & Hl & Hke & Hsz).
    assert (Hkb : key vb ≠ k).
    { intros Heq. rewrite Heq, Hke in Hdb. injection Hdb as <-.
      rewrite Hl in Hb'. revert Hb'. apply Back_cons_ne.
      - rewrite <- Hl. apply Hwf'.
      - intros ->. unfold Len in Hb. rewrite <- Hsz in Hb. simpl in Hb. lia. }
    revert He. unfold entry. simpl. by rewrite lookup_delete_ne.
  - rewrite Put_evict_skip; [done|]. by rewrite HM.
Qed.

Lemma Len_Put_write c k v now :
  Len (Put_write c k v now) =
    match data c !! k with Some _ => Len c | None => Len c + 1 end.
Proof.
  unfold Put_write, Len. destruct (data c !! k) eqn:Hk; simpl; [done|].
  rewrite map_size_insert_None by done. lia.
Qed.

(** [Put] touches nothing but the store. *)
Lemma Put_set_store c k v now :
  ∃ l h n d, Put c k v now = set_store c l h n d.
Proof.
  unfold Put, Put_write, Put_evict.
  destruct (data c !! k); simpl;
    (destruct (_ && _); [|by eauto]);
    (destruct (Back _); by eauto).
Qed.

Lemma maxKeyCount_Put c k v now :
  maxKeyCount (Put c k v now) = maxKeyCount c.
Proof. by destruct (Put_set_store c k v now) as (l & h & n & d & ->). Qed.

Lemma maxKeyCount_Put_write c k v now :
  maxKeyCount (Put_write c k v now) = maxKeyCount c.
Proof. unfold Put_write. by destruct (data c !! k). Qed.

(** A store within a positive limit stays within it across [Put]. *)
Lemma Len_Put_limit c k v now :
  wf c → 0 < maxKeyCount c → Len c ≤ maxKeyCount c →
  Len (Put c k v now) ≤ maxKeyCount c.
Proof.
  intros Hwf Hpos Hle.
  pose proof (wf_Put_write c k v now Hwf) as Hwf'.
  pose proof (Len_Put_write c k v now) as HL.
  pose proof (maxKeyCount_Put_write c k v now) as HM.
  unfold Put.
  destruct (decide (maxKeyCount c ≤ Len (Put_write c k v now))) as [Hr|Hr].
  - destruct (Put_evict_spec (Put_write c k v now)) as
      (b & vb & _ & _ & _ & _ & Hlen); [done|lia|lia|].
    rewrite Hlen. destruct (data c !! k); lia.
  - rewrite Put_evict_skip by lia. lia.
Qed.

(** [Put] removes nothing, or the back element and its map entry. *)
Lemma Put_removes_back c k v now :
  wf c →
  Put c k v now = Put_write c k v now ∨
  ∃ b vb, Back (lru (Put_write c k v now)) = Some b ∧
          heap (Put_write c k v now) !! b = Some vb ∧
          lru (Put c k v now) = Remove b (lru (Put_write c k v now)) ∧
          data (Put c k v now)
            = delete (key vb) (data (Put_write c k v now)) ∧
          Len (Put c k v now) = Len (Put_write c k v now) - 1.
Proof.
  intros Hwf.
  pose proof (wf_Put_write c k v now Hwf) as Hwf'.
  pose proof (maxKeyCount_Put_write c k v now) as HM.
  unfold Put.
  destruct (decide (0 < maxKeyCount c ∧
                    maxKeyCount c ≤ Len (Put_write c k v now))) as [[Hp Hr]|Hr].
  - right. destruct (Put_evict_spec (Put_write c k v now)) as
      (b & vb & Hb & Hvb & _ & Hev & Hlen); [done|lia|lia|].
    exists b, vb. rewrite Hev. split_and!; try done.
    rewrite Hev in Hlen. done.
  - left. apply Put_evict_skip. by rewrite HM.
Qed.

(** C3, amended. In a cache with a positive limit whose store holds at most
    that many entries, the store holds at most that many entries after
    [Put].  Whatever the limit and the size, with no condition on either, a
    [Put] leaves the limit as it is and removes no entry at all or exactly
    one, the element at the back of the list together with its map entry:
    the store shrinks by one entry at most. *)
Theorem Put_keeps_limit c k v now :
  wf c →
  (0 < maxKeyCount c → Len c ≤ maxKeyCount c →
   Len (Put c k v now) ≤ maxKeyCount c) ∧
  maxKeyCount (Put c k v now) = maxKeyCount c ∧
  Len c - 1 ≤ Len (Put c k v now) ∧
  (Put c k v now = Put_write c k v now ∨
   ∃ b vb, Back (lru (Put_write c k v now)) = Some b ∧
           heap (Put_write c k v now) !! b = Some vb ∧
           lru (Put c k v now) = Remove b (lru (Put_write c k v now)) ∧
           data (Put c k v now)
             = delete (key vb) (data (Put_write c k v now)) ∧
           Len (Put c k v now) = Len (Put_write c k v now) - 1).
Proof.
  intros Hwf. split_and!.
  - by apply Len_Put_limit.
  - apply maxKeyCount_Put.
  - pose proof (Len_Put_write c k v now) as HL.
    destruct (Put_removes_back c k v now Hwf)
      as [->|(b & vb & _ & _ & _ & _ & ->)];
      destruct (data c !! k); lia.
  - by apply Put_removes_back.
Qed.

(** [Put] adds no key to the map but the one it writes. *)
Lemma data_Put_Some c k v now k' e :
  data (Put c k v now) !! k' = Some e → k' = k ∨ data c !! k' = Some e.
Proof.
  unfold Put, Put_evict, Put_write.
  destruct (data c !! k) as [e0|] eqn:Hk; simpl;
    (destruct (_ && _); simpl;
     [destruct (Back _) as [b|]; simpl;
      [destruct (_ !! b); simpl|]|]);
    rewrite ?lookup_delete, ?lookup_insert;
    repeat case_decide; naive_solver.
Qed.

(** Starting below a positive limit, distinct new keys fill the cache up to
    one entry less than the limit, and no further. *)
Lemma Len_Put_all (kvs : list (K * V)) : ∀ c now,
  wf c → 0 < maxKeyCount c → Len c < maxKeyCount c →
  NoDup kvs.*1 → (∀ k, k ∈ kvs.*1 → data c !! k = None) →
  Len (Put_all c kvs now)
    = Z.min (Len c + Z.of_nat (length kvs)) (maxKeyCount c - 1).
Proof.
  induction kvs as [|[k v] kvs IH]; intros c now Hwf Hpos Hlt Hnd Hnew.
  - simpl. lia.
  - simpl in *. apply NoDup_cons in Hnd as [Hk Hnd].
    pose proof (wf_Put_write c k v now Hwf) as Hwf'.
    pose proof (Len_Put_write c k v now) as HL.
    rewrite (Hnew k) in HL by (apply elem_of_cons; by left).
    assert (HM : maxKeyCount (Put c k v now) = maxKeyCount c).
    { destruct (Put_set_store c k v now) as (l & h & n & d & ->). done. }
    assert (HMw : maxKeyCount (Put_write c k v now) = maxKeyCount c).
    { unfold Put_write. by destruct (data c !! k). }
    assert (HP : Len (Put c k v now) = Z.min (Len c + 1) (maxKeyCount c - 1)).
    { unfold Put.
      destruct (decide (maxKeyCount c ≤ Len (Put_write c k v now))) as [Hr|Hr].
      - destruct (Put_evict_spec (Put_write c k v now)) as
          (b & vb & _ & _ & _ & _ & Hlen); [done|lia|lia|]. lia.
      - rewrite Put_evict_skip by lia. lia. }
    rewrite IH; try done.
    + rewrite HM, HP. lia.
    + by apply wf_Put.
    + lia.
    + lia.
    + intros k' Hk'. destruct (data (Put c k v now) !! k') as [e|] eqn:He;
        [|done].
      apply data_Put_Some in He as [->|He]; [done|].
      rewrite Hnew in He; [done|]. apply elem_of_cons. by right.
Qed.

(** From an empty cache with a positive limit [M], inserting distinct keys
    leaves at most [M - 1] entries. *)
Lemma Len_Put_all_New (env : LS) (M : Z) (kvs : list (K * V)) now :
  0 < M → NoDup kvs.*1 →
  Len (Put_all (SetMaxKeyCount (New env) M) kvs now)
    = Z.min (Z.of_nat (length kvs)) (M - 1).
Proof.
  intros HM Hnd.
  assert (Hwf : wf (SetMaxKeyCount (New (K:=K) (V:=V) env) M)).
  { split; simpl.
    - apply NoDup_nil_2.
    - intros e He. by apply elem_of_nil in He.
    - intros k e He. by rewrite lookup_empty in He.
    - intros e [v He]. by rewrite lookup_empty in He. }
  rewrite Len_Put_all; [|done|done| |done|done].
  - unfold Len. simpl. rewrite map_size_empty. lia.
  - unfold Len. simpl. rewrite map_size_empty. lia.
Qed.

(** What [Get] returns right after a [Put] of the same key, when the limit
    is not 1 and the entry has not expired at the clock reading of [Get]. *)
Lemma Put_then_Get c k v now now1 now2 race :
  wf c → maxKeyCount c ≠ 1 →
  ¬ (now + expire c < now1) →
  ∃ r, Get (Put c k v now) k now1 now2 race = Some r ∧ got r = (Some v, 0).
Proof.
  intros Hwf Hne Hfresh.
  pose proof (entry_Put_same c k v now Hwf Hne) as He.
  apply entry_Some in He as (e & He & Hv).
  assert (HE : expire (Put c k v now) = expire c).
  { destruct (Put_set_store c k v now) as (l & h & n & d & ->). done. }
  unfold Get. rewrite He, Hv. unfold expired. rewrite HE. simpl.
  rewrite (proj2 (Z.ltb_ge _ _)) by lia. rewrite andb_false_r.
  eexists. split; done.
Qed.

(** ** The loader *)

Lemma store_set_group c env m cs n : store (set_group c env m cs n) = store c.
Proof. done. Qed.

Lemma Put_set_group c env m cs n k v now :
  Put (set_group c env m cs n) k v now = set_group (Put c k v now) env m cs n.
Proof.
  unfold Put, Put_write, Put_evict, Len. simpl.
  destruct (data c !! k); simpl;
    (destruct (_ && _); [|done]);
    (destruct (Back _); [|done]); done.
Qed.

Lemma call_at_set_group c env m cs n cid cl :
  call_at (set_group c env m (<[cid := cl]> cs) n) cid = cl.
Proof. unfold call_at. simpl. by rewrite lookup_insert_eq. Qed.

Lemma getData_load_spec c k cid f v r env :
  upfunc c = Some f →
  f k (upenv c) = ((v, r), env) →
  getData_load c k cid =
    set_group c env (g_m c)
              (<[cid := mkCall (wg_done (call_at c cid)) (Some v) r]>
                 (calls c))
              (next_call c).
Proof. intros Hup Hf. unfold getData_load. by rewrite Hup, Hf. Qed.

(** What the leading path of [getData] does, given what the loader
    returns. *)
Lemma getData_lead_spec c k f v r env now :
  upfunc c = Some f →
  f k (upenv c) = ((v, r), env) →
  getData_lead c k now =
    ((Some v, r),
     set_group (if r =? 0 then Put c k v now else c) env (delete k (g_m c))
               (<[next_call c := mkCall true (Some v) r]> (calls c))
               (S (next_call c))).
Proof.
  intros Hup Hf. unfold getData_lead, getData_register.
  rewrite (getData_load_spec _ k _ f v r env) by done.
  unfold getData_put. rewrite call_at_set_group.
  cbn [ret val]. destruct (r =? 0) eqn:Hr.
  - rewrite !Put_set_group. unfold getData_done, getData_forget, call_at.
    simpl. rewrite !lookup_insert_eq. simpl.
    rewrite !insert_insert_eq, delete_insert_eq. done.
  - unfold getData_done, getData_forget, call_at.
    simpl. rewrite !lookup_insert_eq. simpl.
    rewrite !insert_insert_eq, delete_insert_eq. done.
Qed.

Lemma entry_store c c' k : store c' = store c → entry c' k = entry c k.
Proof. unfold store, entry. by intros [= _ -> _ ->]. Qed.

(** When the cache runs the loader, on a miss through [getData] or in the
    background refresh, [Put] is called with the value exactly when the
    returned status is 0, and unless the limit is 1 the entry of the key
    then holds the value; with any other status the store is left as it
    was.  On the miss path the loader's pair is what [getData], and so
    [Get], returns. *)
Lemma loader_result_stored c k f v r env now :
  wf c →
  upfunc c = Some f →
  f k (upenv c) = ((v, r), env) →
  (g_m c !! k = None →
   ∃ c', getData c k now = Some ((Some v, r), c') ∧
         (data c !! k = None → ∀ now2 race,
          Get c k now now2 race = Some (mkGet (Some v, r) c' None)) ∧
         (r = 0 → store c' = store (Put c k v now) ∧
                  (maxKeyCount c ≠ 1 →
                   entry c' k = Some (mkValue k v now))) ∧
         (r ≠ 0 → store c' = store c)) ∧
  (r = 0 → store (upValue c k now) = store (Put c k v now) ∧
           (maxKeyCount c ≠ 1 →
            entry (upValue c k now) k = Some (mkValue k v now))) ∧
  (r ≠ 0 → store (upValue c k now) = store c).
Proof.
  intros Hwf Hup Hf. split_and!.
  - intros Hg. unfold getData. rewrite Hg.
    rewrite (getData_lead_spec c k f v r env now Hup Hf).
    eexists. split_and!; [done| | |].
    + intros Hd now2 race. unfold Get, getData. rewrite Hd, Hup, Hg.
      by rewrite (getData_lead_spec c k f v r env now Hup Hf).
    + intros ->. split; [done|]. intros Hne.
      by rewrite <- (entry_Put_same c k v now Hwf Hne).
    + intros Hr. by rewrite (proj2 (Z.eqb_neq _ _) Hr).
  - intros ->. unfold upValue. rewrite Hup, Hf. simpl.
    rewrite Put_set_group. split; [done|]. intros Hne.
    by rewrite <- (entry_Put_same c k v now Hwf Hne).
  - intros Hr. unfold upValue. rewrite Hup, Hf.
    by rewrite (proj2 (Z.eqb_neq _ _) Hr).
Qed.

(** ** The periodic sweep *)

Lemma filter_ext_elem {A} (P Q : A → Prop)
    `{∀ a, Decision (P a), ∀ a, Decision (Q a)} (s : list A) :
  (∀ a, a ∈ s → P a ↔ Q a) → filter P s = filter Q s.
Proof.
  induction s as [|y s IH]; intros Hpq; [done|].
  rewrite !filter_cons.
  assert (Hy : P y ↔ Q y) by (apply Hpq, elem_of_cons; by left).
  rewrite IH by (intros a Ha; apply Hpq, elem_of_cons; by right).
  destruct (decide (P y)), (decide (Q y)); tauto || done.
Qed.

(** The loop of [clearExpired] never changes the elements themselves, so
    every iteration decides expiry as the first one would. *)
Lemma foldl_clear_one now order : ∀ c,
  foldl (clear_one now) c order =
    set_store c
      (foldl (λ l ke, if stale_at c now ke.2 then Remove ke.2 l else l)
             (lru c) order)
      (heap c) (next c)
      (foldl (λ d ke, if stale_at c now ke.2 then delete ke.1 d else d)
             (data c) order).
Proof.
  induction order as [|ke order IH]; intros c; simpl.
  - by destruct c.
  - rewrite IH. unfold clear_one, stale_at.
    destruct (heap c !! ke.2) as [v|]; [|done].
    destruct (expired c v now); done.
Qed.

Lemma foldl_Remove_swept c now order : ∀ l,
  foldl (λ l ke, if stale_at c now ke.2 then Remove ke.2 l else l) l order
  = filter (λ x, swept c now order x = false) l.
Proof.
  induction order as [|ke order IH]; intros l; simpl.
  - induction l as [|y l IHl]; [done|].
    rewrite filter_cons. rewrite decide_True by done. by f_equal.
  - rewrite IH. destruct (stale_at c now ke.2) eqn:Hs.
    + unfold Remove. rewrite list_filter_filter. apply filter_ext_elem.
      intros x _. rewrite andb_true_r.
      destruct (bool_decide_reflect (ke.2 = x)); simpl;
        intuition congruence.
    + apply filter_ext_elem. intros x _. by rewrite andb_false_r.
Qed.

Lemma foldl_delete_lookup c now order k : ∀ (d : gmap K loc),
  foldl (λ d ke, if stale_at c now ke.2 then delete ke.1 d else d) d order
    !! k
  = if existsb (λ ke, bool_decide (ke.1 = k) && stale_at c now ke.2) order
    then None else d !! k.
Proof.
  induction order as [|ke order IH]; intros d; simpl; [done|].
  rewrite IH. destruct (existsb _ order).
  - by rewrite orb_true_r.
  - rewrite orb_false_r. destruct (stale_at c now ke.2).
    + rewrite andb_true_r. destruct (bool_decide_reflect (ke.1 = k)).
      * subst. by rewrite lookup_delete_eq.
      * by rewrite lookup_delete_ne.
    + by rewrite andb_false_r.
Qed.

(** The sweep, with a time-to-live configured, filters the list and the map
    by the expiry test and touches nothing else. *)
Lemma clearExpired_filter c order now :
  wf c →
  order ≡ₚ map_to_list (data c) →
  expire c ≠ 0 →
  clearExpired order c now =
    set_store c (filter (λ e, stale_at c now e = false) (lru c))
      (heap c) (next c)
      (filter (λ ke, stale_at c now ke.2 = false) (data c)).
Proof.
  intros Hwf Hperm Hexp. unfold clearExpired.
  rewrite (proj2 (Z.eqb_neq _ _) Hexp), foldl_clear_one. f_equal.
  - rewrite foldl_Remove_swept. apply filter_ext_elem.
    intros x Hx. destruct (wf_lru c Hwf _ Hx) as (v & Hv & Hd).
    assert (Hex : swept c now order x = stale_at c now x).
    { apply eq_true_iff_eq. unfold swept. rewrite existsb_exists. split.
      - intros ([k' e'] & Hin & Hb). simpl in Hb.
        apply andb_prop in Hb as [He' Hs].
        apply bool_decide_eq_true in He'. by subst e'.
      - intros Hs. exists (key v, x). split.
        + apply list_elem_of_In. rewrite Hperm.
          by apply elem_of_map_to_list.
        + simpl. by rewrite bool_decide_eq_true_2. }
    by rewrite Hex.
  - apply map_eq. intros k. rewrite foldl_delete_lookup.
    rewrite map_lookup_filter.
    destruct (data c !! k) as [e|] eqn:Hk; simpl.
    + assert (Hex : existsb (λ ke, bool_decide (ke.1 = k)
                                    && stale_at c now ke.2) order
                    = stale_at c now e).
      { apply eq_true_iff_eq. rewrite existsb_exists. split.
        - intros ([k' e'] & Hin & Hb). simpl in Hb.
          apply andb_prop in Hb as [Hk' Hs].
          apply bool_decide_eq_true in Hk'. subst k'.
          apply list_elem_of_In in Hin. rewrite Hperm in Hin.
          apply elem_of_map_to_list in Hin. congruence.
        - intros Hs. exists (k, e). split.
          + apply list_elem_of_In. rewrite Hperm.
            by apply elem_of_map_to_list.
          + simpl. by rewrite bool_decide_eq_true_2. }
      rewrite Hex. destruct (stale_at c now e) eqn:Hs.
      * by rewrite option_guard_False by (simpl; congruence).
      * by rewrite option_guard_True.
    + by destruct (existsb _ _).
Qed.

(** C8. One run of the sweep over the entries of the map, produced in any
    order, removes from the map and from the list exactly the entries whose
    heartbeat plus the time-to-live is before the clock reading, and leaves
    the others and the elements themselves untouched; with no time-to-live
    configured the sweep changes nothing. *)
Theorem clearExpired_removes_expired c order now :
  wf c →
  order ≡ₚ map_to_list (data c) →
  (expire c ≠ 0 →
     data (clearExpired order c now)
       = filter (λ ke, stale_at c now ke.2 = false) (data c) ∧
     lru (clearExpired order c now)
       = filter (λ e, stale_at c now e = false) (lru c) ∧
     heap (clearExpired order c now) = heap c) ∧
  (expire c = 0 → clearExpired order c now = c).
Proof.
  intros Hwf Hperm. split.
  - intros Hexp. by rewrite clearExpired_filter.
  - intros Hz. unfold clearExpired. by rewrite Hz.
Qed.

(** ** The refresh that [Get] starts *)

Lemma heap_Put_evict c : heap (Put_evict c) = heap c.
Proof.
  unfold Put_evict. destruct (_ && _); [|done]. by destruct (Back (lru c)).
Qed.

Lemma heap_Get_bump c e v :
  heap (Get_bump c e v) !! e
    = Some (mkValue (key v) (value v) (heartbeat v + Second * 3)).
Proof. unfold Get_bump. simpl. by rewrite lookup_insert_eq. Qed.

(** The element of a key once the refresh goroutine has run: it holds the
    loader's value and the clock reading of the [Put] if the loader
    succeeded, and is as before otherwise, whatever [Put] evicts. *)
Lemma heap_upValue c k e v f now :
  upfunc c = Some f → data c !! k = Some e → heap c !! e = Some v →
  heap (upValue c k now) !! e =
    Some (if (f k (upenv c)).1.2 =? 0
          then mkValue (key v) (f k (upenv c)).1.1 now else v).
Proof.
  intros Hup He Hv. unfold upValue. rewrite Hup.
  destruct (f k (upenv c)) as [[v' st] env]. simpl.
  destruct (st =? 0); [|done].
  rewrite Put_set_group. simpl. unfold Put. rewrite heap_Put_evict.
  unfold Put_write. rewrite He. simpl.
  rewrite lookup_alter, decide_True by done. by rewrite Hv.
Qed.

(** [Get] on an expired entry with a loader configured, path by path.  The
    value returned is the one the element holds on line 130: the stale one
    unless the refresh goroutine has run and its loader succeeded. *)
Lemma Get_refresh c k e v f now1 now2 race :
  data c !! k = Some e → heap c !! e = Some v →
  expire c ≠ 0 → heartbeat v + expire c < now1 → upfunc c = Some f →
  Get c k now1 now2 race =
    if expired c v now2 then
      match race with
      | Some t =>
          Some (mkGet (Some (if (f k (upenv c)).1.2 =? 0
                             then (f k (upenv c)).1.1 else value v), 0)
                  (upValue (Get_bump c e v) k t) (Some k))
      | None => Some (mkGet (Some (value v), 0) (Get_bump c e v) (Some k))
      end
    else Some (mkGet (Some (value v), 0) c None).
Proof.
  intros He Hv Hexp Hlt Hup. unfold Get. rewrite He, Hv, Hup.
  rewrite (proj2 (Z.eqb_neq _ _) Hexp). simpl.
  replace (expired c v now1) with true
    by (symmetry; by apply Z.ltb_lt).
  destruct (expired c v now2); [|done].
  destruct race as [t|].
  - rewrite (heap_upValue (Get_bump c e v) k e _ f t Hup He
               (heap_Get_bump c e v)).
    change (upenv (Get_bump c e v)) with (upenv c).
    by destruct (_ =? 0).
  - by rewrite heap_Get_bump.
Qed.

(** A [Get] that returns after the goroutine it started has run leaves the
    cache that the same [Get] returning before leaves once the goroutine
    has run; a [Get] that starts none does not depend on [race]. *)
Lemma Get_race c k now1 now2 t r :
  Get c k now1 now2 (Some t) = Some r →
  ∃ r0, Get c k now1 now2 None = Some r0 ∧
        spawned r = spawned r0 ∧
        match spawned r0 with
        | Some k' => k' = k ∧ after r = upValue (after r0) k t
        | None => r = r0
        end.
Proof.
  unfold Get. destruct (data c !! k) as [e|] eqn:He.
  - destruct (heap c !! e) as [v|] eqn:Hv; [|done].
    destruct (_ && _).
    + destruct (upfunc c) as [f|] eqn:Hup; [|intros [= <-]; by eexists].
      destruct (expired c v now2); [|intros [= <-]; by eexists].
      rewrite heap_Get_bump.
      destruct (heap (upValue _ _ _) !! e); [|done].
      intros [= <-]. by eexists.
    + intros [= <-]. by eexists.
  - destruct (upfunc c); [|intros [= <-]; by eexists].
    destruct (getData c k now1) as [[p c']|]; [|done].
    intros [= <-]. by eexists.
Qed.

(** C5, amended. With a loader configured, [Get] on a key whose entry has
    expired returns status 0 without waiting for the loader.  Expiry is
    checked again at a second clock reading.  If the entry is still expired,
    its heartbeat is moved forward by three seconds, nothing else in the
    store changing, and a refresh goroutine for the key is started; the
    value returned is the one the entry holds when [Get] reads it after
    releasing the lock: the stale value when the goroutine has not run by
    then, in which case the loader has not run either, and the loader's
    value when the goroutine has run and the loader succeeded.  If the entry
    is no longer expired the stale value is returned, the cache is left as
    it was and no refresh is started. *)
Theorem Get_expired_with_loader c k e v f now1 now2 race :
  data c !! k = Some e →
  heap c !! e = Some v →
  expire c ≠ 0 →
  heartbeat v + expire c < now1 →
  upfunc c = Some f →
  ∃ r, Get c k now1 now2 race = Some r ∧
       (got r).2 = 0 ∧
       if expired c v now2
       then spawned r = Some k ∧
            entry (Get_bump c e v) k
              = Some (mkValue (key v) (value v) (heartbeat v + 3 * Second)) ∧
            lru (Get_bump c e v) = lru c ∧
            data (Get_bump c e v) = data c ∧
            upenv (Get_bump c e v) = upenv c ∧
            (wf c → ∀ k', k' ≠ k → entry (Get_bump c e v) k' = entry c k') ∧
            match race with
            | None =>
                after r = Get_bump c e v ∧ got r = (Some (value v), 0)
            | Some t =>
                after r = upValue (Get_bump c e v) k t ∧
                got r = (Some (if (f k (upenv c)).1.2 =? 0
                               then (f k (upenv c)).1.1 else value v), 0)
            end
       else got r = (Some (value v), 0) ∧ after r = c ∧ spawned r = None.
Proof.
  intros He Hv Hexp Hlt Hup.
  rewrite (Get_refresh c k e v f now1 now2 race) by done.
  destruct (expired c v now2).
  - assert (Hfacts :
      entry (Get_bump c e v) k
        = Some (mkValue (key v) (value v) (heartbeat v + 3 * Second)) ∧
      (wf c → ∀ k', k' ≠ k → entry (Get_bump c e v) k' = entry c k')).
    { split.
      - unfold entry. change (data (Get_bump c e v)) with (data c).
        rewrite He. simpl. rewrite lookup_insert_eq. do 2 f_equal; lia.
      - intros Hwf k' Hne. unfold entry.
        change (data (Get_bump c e v)) with (data c).
        destruct (data c !! k') as [x|] eqn:Hk'; simpl; [|done].
        rewrite lookup_insert_ne; [done|].
        intros <-. apply Hne. eapply wf_inj; eauto. }
    destruct Hfacts as [Hent Hoth].
    destruct race as [t|]; eexists; (split; [done|]); simpl;
      split_and!; done.
  - eexists. split; [done|]. simpl. done.
Qed.

(** ** Heartbeats *)

Lemma heartbeat_of_Put c k' k v now h h' :
  wf c →
  heartbeat_of c k = Some h →
  heartbeat_of (Put c k' v now) k = Some h' →
  h' = if decide (k' = k) then now else h.
Proof.
  intros Hwf Hh Hh'. unfold heartbeat_of in *.
  destruct (entry_Put c k' k v now Hwf) as [Hn|Hs].
  - by rewrite Hn in Hh'.
  - rewrite Hs in Hh'. case_decide; simpl in Hh'; congruence.
Qed.

Local Ltac same_heartbeat :=
  match goal with
  | Hh : heartbeat_of ?c ?k = Some ?h, Hh' : _ = Some ?h' |- ?h ≤ ?h' =>
      let Hs := fresh in
      assert (Hs : Some h = Some h')
        by (etrans; [symmetry; exact Hh|exact Hh']);
      injection Hs as ->; lia
  end.

(** C4, amended. Across one operation ([Put], [Get], or the write-back of a
    background refresh) the heartbeat of a key's entry does not decrease,
    provided that, when the operation is a [Put] or a refresh write-back of
    that very key, the stored heartbeat is not later than the clock reading
    of the operation. *)
Theorem heartbeat_step c o k h h' :
  wf c →
  heartbeat_of c k = Some h →
  heartbeat_of (run_op c o) k = Some h' →
  (∀ t, writes_at o k = Some t → h ≤ t) →
  h ≤ h'.
Proof.
  intros Hwf Hh Hh' Hclock. destruct o as [k' v now|k' now1 now2|k' now].
  - simpl in *. rewrite (heartbeat_of_Put c k' k v now h h') by done.
    case_decide; [by apply Hclock|lia].
  - simpl in *. unfold Get in Hh'.
    destruct (data c !! k') as [e|] eqn:Hk'.
    + destruct (heap c !! e) as [ve|] eqn:Hve;
        [|same_heartbeat].
      destruct (negb (expire c =? 0) && expired c ve now1).
      * destruct (upfunc c); [|same_heartbeat].
        destruct (expired c ve now2);
          [|same_heartbeat].
        rewrite heap_Get_bump in Hh'.
        simpl in Hh'. unfold heartbeat_of, entry in Hh, Hh'. simpl in Hh'.
        destruct (data c !! k) as [x|] eqn:Hk; simpl in *; [|done].
        rewrite lookup_insert in Hh'. case_decide as Hd.
        -- subst x. rewrite Hve in Hh. simpl in *.
           injection Hh as <-. injection Hh' as <-. unfold Second. lia.
        -- assert (Hs : Some h = Some h')
             by (etrans; [symmetry; exact Hh|exact Hh']).
           injection Hs as ->. lia.
      * simpl in Hh'. destruct (0 <? maxKeyCount c); same_heartbeat.
    + assert (Hne : k' ≠ k).
      { intros ->. unfold heartbeat_of, entry in Hh. by rewrite Hk' in Hh. }
      destruct (upfunc c) as [f|] eqn:Hup;
        [|same_heartbeat].
      unfold getData in Hh'. destruct (g_m c !! k') as [cid|].
      * destruct (wg_done (call_at c cid)); same_heartbeat.
      * destruct (f k' (upenv c)) as [[v r] env] eqn:Hf.
        rewrite (getData_lead_spec c k' f v r env now1 Hup Hf) in Hh'.
        simpl in Hh'. change (heartbeat_of
          (set_group (if r =? 0 then Put c k' v now1 else c) env
             (delete k' (g_m c))
             (<[next_call c := mkCall true (Some v) r]> (calls c))
             (S (next_call c))) k)
          with (heartbeat_of (if r =? 0 then Put c k' v now1 else c) k)
          in Hh'.
        destruct (r =? 0); [|same_heartbeat].
        rewrite (heartbeat_of_Put c k' k v now1 h h') by done.
        rewrite decide_False by done. lia.
  - simpl in *. unfold upValue in Hh'.
    destruct (upfunc c) as [f|]; [|same_heartbeat].
    destruct (f k' (upenv c)) as [[v r] env].
    destruct (r =? 0); [|same_heartbeat].
    rewrite Put_set_group in Hh'.
    change (heartbeat_of (set_group (Put c k' v now) env (g_m c) (calls c)
                            (next_call c)) k)
      with (heartbeat_of (Put c k' v now) k) in Hh'.
    rewrite (heartbeat_of_Put c k' k v now h h') by done.
    case_decide; [by apply Hclock|lia].
Qed.

(** ** Every operation keeps the store invariant *)

Lemma wf_store c c' : store c' = store c → wf c → wf c'.
Proof.
  intros Hs Hwf. unfold store in Hs. injection Hs as Hl Hh Hn Hd.
  destruct Hwf as [W1 W2 W3 W4].
  split; rewrite ?Hl, ?Hh, ?Hn, ?Hd; done.
Qed.

Lemma wf_touch c e :
  wf c → wf (set_store c (MoveToFront e (lru c)) (heap c) (next c) (data c)).
Proof.
  intros [W1 W2 W3 W4]. split; simpl.
  - by apply NoDup_MoveToFront.
  - intros x Hx. apply W2. by apply elem_of_MoveToFront in Hx.
  - intros k x Hx. rewrite elem_of_MoveToFront. by apply W3.
  - done.
Qed.

Lemma wf_bump c e v hb :
  wf c → heap c !! e = Some v →
  wf (set_store c (lru c) (<[e := mkValue (key v) (value v) hb]> (heap c))
                (next c) (data c)).
Proof.
  intros [W1 W2 W3 W4] Hv. split; simpl.
  - done.
  - intros x Hx. destruct (W2 x Hx) as (vx & Hvx & Hdx).
    rewrite lookup_insert. case_decide as Hd.
    + subst x. eexists. split; [done|]. simpl. congruence.
    + eauto.
  - intros k x Hx. destruct (W3 k x Hx) as (Hin & vx & Hvx & Hkx).
    split; [done|]. rewrite lookup_insert. case_decide as Hd.
    + subst x. eexists. split; [done|]. simpl. congruence.
    + eauto.
  - intros x Hx. apply W4. rewrite lookup_insert in Hx.
    case_decide; [subst; eauto|done].
Qed.

Lemma wf_upValue c k now : wf c → wf (upValue c k now).
Proof.
  intros Hwf. unfold upValue. destruct (upfunc c) as [f|]; [|done].
  destruct (f k (upenv c)) as [[v r] env]. destruct (r =? 0).
  - rewrite Put_set_group. eapply wf_store; [apply store_set_group|].
    by apply wf_Put.
  - by eapply wf_store; [apply store_set_group|].
Qed.

Lemma wf_Get c k now1 now2 race r :
  wf c → Get c k now1 now2 race = Some r → wf (after r).
Proof.
  intros Hwf. unfold Get.
  destruct (data c !! k) as [e|] eqn:Hk.
  - destruct (heap c !! e) as [v|] eqn:Hv; [|done].
    destruct (_ && _).
    + destruct (upfunc c); [|by intros [= <-]].
      destruct (expired c v now2); [|by intros [= <-]].
      cbv zeta.
      set (c2 := match race with
                 | Some t => upValue (Get_bump c e v) k t
                 | None => Get_bump c e v
                 end).
      assert (wf c2)
        by (destruct race; [apply wf_upValue|]; by apply wf_bump).
      destruct (heap c2 !! e); [|done]. by intros [= <-].
    + intros [= <-]. simpl. destruct (0 <? maxKeyCount c); [|done].
      by apply wf_touch.
  - destruct (upfunc c) as [f|] eqn:Hup; [|by intros [= <-]].
    unfold getData. destruct (g_m c !! k) as [cid|].
    + destruct (wg_done _); [|done]. by intros [= <-].
    + destruct (f k (upenv c)) as [[v st] env] eqn:Hf.
      rewrite (getData_lead_spec c k f v st env now1 Hup Hf).
      intros [= <-]. simpl. eapply wf_store; [apply store_set_group|].
      destruct (st =? 0); [by apply wf_Put|done].
Qed.

Lemma wf_run_op c o : wf c → wf (run_op c o).
Proof.
  intros Hwf. destruct o as [k v now|k now1 now2|k now]; simpl.
  - by apply wf_Put.
  - destruct (Get c k now1 now2 None) as [r|] eqn:Hr; [|done].
    by eapply wf_Get.
  - by apply wf_upValue.
Qed.

Lemma wf_clearExpired c order now :
  wf c → order ≡ₚ map_to_list (data c) → wf (clearExpired order c now).
Proof.
  intros Hwf Hperm.
  destruct (decide (expire c = 0)) as [Hz|Hnz].
  { unfold clearExpired. by rewrite Hz. }
  rewrite clearExpired_filter by done.
  destruct Hwf as [W1 W2 W3 W4]. split; simpl; [| | |done].
  - by apply NoDup_filter.
  - intros x [Hs Hx]%list_elem_of_filter.
    destruct (W2 x Hx) as (v & Hv & Hdx). exists v. split; [done|].
    by apply map_lookup_filter_Some.
  - intros k x [Hx Hs]%map_lookup_filter_Some.
    destruct (W3 k x Hx) as (Hin & v & Hv & Hkx).
    split; [|eauto]. by apply list_elem_of_filter.
Qed.

(** Every cache reached from one that satisfies the store invariant, such
    as a new one, satisfies it. *)
Lemma reachable_wf c0 c : wf c0 → reachable c0 c → wf c.
Proof.
  intros Hwf Hreach. induction Hreach; auto using wf_run_op, wf_Del,
    wf_Clear, wf_clearExpired.
Qed.

(** The cache that a [Get] leaves is reached by the operations above, also
    when the refresh it starts has run before it returns. *)
Lemma reachable_Get c0 c k now1 now2 race r :
  reachable c0 c → Get c k now1 now2 race = Some r → reachable c0 (after r).
Proof.
  intros Hc Hr.
  assert (Hnone : ∀ r0, Get c k now1 now2 None = Some r0 →
                        reachable c0 (after r0)).
  { intros r0 Hr0.
    replace (after r0) with (run_op c (OpGet k now1 now2))
      by (simpl; by rewrite Hr0).
    by constructor. }
  destruct race as [t|]; [|by apply Hnone].
  apply Get_race in Hr as (r0 & Hr0 & _ & Hs).
  destruct (spawned r0).
  - destruct Hs as [_ ->].
    exact (reach_op c0 _ (OpRefresh k t) (Hnone r0 Hr0)).
  - subst r. by apply Hnone.
Qed.

(** ** The limit along the use of a cache *)

Lemma limit_run_op c o :
  wf c → 0 < maxKeyCount c → Len c ≤ maxKeyCount c →
  Len (run_op c o) ≤ maxKeyCount c ∧
  maxKeyCount (run_op c o) = maxKeyCount c.
Proof.
  intros Hwf Hpos Hle. destruct o as [k v now|k now1 now2|k now]; simpl.
  - split; [by apply Len_Put_limit|apply maxKeyCount_Put].
  - unfold Get. destruct (data c !! k) as [e|] eqn:Hk.
    + destruct (heap c !! e) as [v|]; [|done].
      destruct (_ && _).
      * destruct (upfunc c); [|done].
        destruct (expired c v now2); [|done].
        cbv zeta. by rewrite heap_Get_bump.
      * simpl. by destruct (0 <? maxKeyCount c).
    + destruct (upfunc c) as [f|] eqn:Hup; [|done].
      unfold getData. destruct (g_m c !! k) as [cid|].
      * by destruct (wg_done _).
      * destruct (f k (upenv c)) as [[v st] env] eqn:Hf.
        rewrite (getData_lead_spec c k f v st env now1 Hup Hf). simpl.
        destruct (st =? 0); [|done].
        split; [by apply Len_Put_limit|apply maxKeyCount_Put].
  - unfold upValue. destruct (upfunc c) as [f|]; [|done].
    destruct (f k (upenv c)) as [[v st] env].
    destruct (st =? 0); [|done]. rewrite Put_set_group.
    split; [by apply Len_Put_limit|apply maxKeyCount_Put].
Qed.

(** X18. Once a positive limit is configured on a cache within it, every
    cache reached by using it ([Put], [Get], refresh write-back, [Del],
    [Clear], sweep) keeps the store invariant, the limit, and a store within
    the limit. *)
Lemma reachable_limit c0 c :
  wf c0 → 0 < maxKeyCount c0 → Len c0 ≤ maxKeyCount c0 →
  reachable c0 c →
  wf c ∧ maxKeyCount c = maxKeyCount c0 ∧ Len c ≤ maxKeyCount c0.
Proof.
  intros Hwf Hpos Hle Hreach.
  induction Hreach as [|c o _ (IH1 & IH2 & IH3)|c k _ (IH1 & IH2 & IH3)
                       |c _ (IH1 & IH2 & IH3)
                       |c order now _ (IH1 & IH2 & IH3) Hperm].
  - done.
  - destruct (limit_run_op c o) as [Hl Hm]; [done|lia|lia|].
    split_and!; [by apply wf_run_op|congruence|lia].
  - split_and!; [by apply wf_Del| |].
    + unfold Del. by destruct (data c !! k).
    + unfold Del. destruct (data c !! k) eqn:Hk; [|done].
      unfold Len in *. simpl. rewrite map_size_delete_Some by eauto. lia.
  - split_and!; [by apply wf_Clear|done|].
    unfold Len. simpl. rewrite map_size_empty. lia.
  - split_and!; [by apply wf_clearExpired| |].
    + unfold clearExpired. destruct (expire c =? 0); [done|].
      by rewrite foldl_clear_one.
    + destruct (decide (expire c = 0)) as [Hz|Hnz].
      * unfold clearExpired. by rewrite Hz.
      * rewrite clearExpired_filter by done. unfold Len in *. simpl.
        pose proof (map_size_filter
                      (λ ke : K * loc, stale_at c now ke.2 = false) (data c)).
        lia.
Qed.

End Operations.

(** * Concurrent calls of [getData] *)

Section Coalescing.

Context {K : Type} `{Countable K} {V LS : Type}.
Implicit Types (c : Cache (K:=K) (V:=V) (LS:=LS)).
Implicit Types (m : machine (K:=K) (V:=V) (LS:=LS)).
Implicit Types (p : pc (V:=V)) (ts : list (pc (V:=V))).

#[local] Arguments getData_put : simpl never.

Lemma getData_put_group c k cid now :
  upfunc (getData_put c k cid now) = upfunc c ∧
  upenv (getData_put c k cid now) = upenv c ∧
  g_m (getData_put c k cid now) = g_m c ∧
  calls (getData_put c k cid now) = calls c ∧
  next_call (getData_put c k cid now) = next_call c.
Proof.
  unfold getData_put. destruct (_ =? 0); [|done].
  destruct (val _) as [v|]; [|done].
  by destruct (Put_set_store c k v now) as (l & h & n & d & ->).
Qed.

Lemma follows_insert cid r fin ts i j p' :
  (∀ j p, j ≠ i → ts !! j = Some p → follows cid r fin p) →
  follows cid r fin p' →
  ∀ j' p, j' ≠ i → <[j := p']> ts !! j' = Some p → follows cid r fin p.
Proof.
  intros Hf Hp' j' p Hne Hl.
  destruct (decide (j = j')) as [->|Hjj].
  - apply list_lookup_insert_Some in Hl as [(_ & <- & _)|(? & _)]; done.
  - rewrite list_lookup_insert_ne in Hl by done. eauto.
Qed.

(** The leader moves on: followers are untouched, and those that have
    returned did so after [wg.Done()]. *)
Lemma follows_insert_same cid r fin fin' ts i p' :
  (∀ j p, j ≠ i → ts !! j = Some p → follows cid r fin p) →
  (fin = true → fin' = true) →
  ∀ j' p, j' ≠ i → <[i := p']> ts !! j' = Some p → follows cid r fin' p.
Proof.
  intros Hf Hfin j' p Hne Hl. rewrite list_lookup_insert_ne in Hl by done.
  destruct (Hf j' p Hne Hl) as [?|[?|[? ?]]];
    [by left|by right; left|right; right; auto].
Qed.

Lemma shared_call_start c k r n :
  g_m c !! k = None → shared_call c k r (start c n).
Proof.
  intros Hg. split; [done|]. left. simpl. split_and!; try done.
  intros p Hp. by apply elem_of_replicate in Hp as [? _].
Qed.

(** A step of any goroutine keeps the run within the states that share one
    call, unless a goroutine is late. *)
Lemma shared_call_step c0 k f v st env m tn :
  upfunc c0 = Some f →
  f k (upenv c0) = ((v, st), env) →
  shared_call c0 k (Some v, st) m →
  late c0 k m = false →
  shared_call c0 k (Some v, st) (sched_step k m tn).
Proof.
  intros Hup Hf [Hupm Hph] Hlate. destruct tn as [j now].
  unfold sched_step. simpl.
  destruct (threads m !! j) as [p|] eqn:Hp; [|by split].
  pose proof (lookup_lt_Some _ _ _ Hp) as Hlen.
  destruct Hph as [(Hnc & Hg & Henv & Hld & Hall)|(Hnc & i & pl & Hi & Hlead & Hfol)].
  - (* nobody has entered: [j] registers the call and leads *)
    assert (p = AtEnter) as -> by (eapply Hall, list_elem_of_lookup_2; eauto).
    simpl. rewrite Hg. simpl. split; [done|]. right. simpl.
    split; [by rewrite Hnc|].
    exists j, (AtLoad (next_call (shared m))).
    split_and!.
    + by apply list_lookup_insert_eq.
    + simpl. rewrite <- Hnc. rewrite !lookup_insert_eq.
      split_and!; try done; by rewrite Hld.
    + intros j' p' Hne Hl. rewrite list_lookup_insert_ne in Hl by done.
      left. eapply Hall, list_elem_of_lookup_2; eauto.
  - destruct (decide (j = i)) as [->|Hji].
    + (* the leader moves *)
      assert (p = pl) as -> by congruence.
      destruct pl as [|cid|cid|cid|cid|cid|r']; simpl in Hlead; try done.
      * (* the loader runs *)
        destruct Hlead as (-> & Hg & Hld & Henv & Hcall).
        simpl. rewrite (getData_load_spec (shared m) k _ f v st env)
          by (rewrite ?Hupm, ?Henv; done).
        split; [done|]. right. simpl. split; [done|].
        exists i, (AtPut (next_call c0)). split_and!.
        -- by apply list_lookup_insert_eq.
        -- simpl. rewrite lookup_insert_eq. unfold call_at. rewrite Hcall.
           simpl. split_and!; try done; by rewrite Hld.
        -- by eapply follows_insert_same.
      * destruct Hlead as (-> & Hg & Hld & Hcall). simpl.
        destruct (getData_put_group (shared m) k (next_call c0) now)
          as (E1 & E2 & E3 & E4 & E5).
        split; [simpl; by rewrite E1|]. right. simpl.
        split; [by rewrite E5|].
        exists i, (AtDone (next_call c0)). split_and!.
        -- by apply list_lookup_insert_eq.
        -- simpl. rewrite E3, E4. split_and!; try done; by rewrite Hld.
        -- by eapply follows_insert_same.
      * destruct Hlead as (-> & Hg & Hld & Hcall). simpl.
        split; [done|]. right. simpl. split; [done|].
        exists i, (AtForget (next_call c0)). split_and!.
        -- by apply list_lookup_insert_eq.
        -- simpl. rewrite lookup_insert_eq. unfold call_at. rewrite Hcall.
           simpl. split_and!; try done; by rewrite Hld.
        -- by eapply follows_insert_same.
      * destruct Hlead as (-> & Hg & Hld & Hcall). simpl.
        split; [done|]. right. simpl. split; [done|].
        exists i, (Returned (Some v, st)). split_and!.
        -- unfold call_at. simpl. rewrite Hcall. simpl.
           by apply list_lookup_insert_eq.
        -- simpl. rewrite lookup_delete_eq. split_and!; try done; by rewrite Hld.
        -- by eapply follows_insert_same.
      * simpl. split; [done|]. right. split; [done|]. eauto.
    + (* a follower moves *)
      destruct (Hfol j p Hji Hp) as [->|[->|[-> Hfin]]]; simpl.
      * destruct (g_m (shared m) !! k) as [cid|] eqn:Hg.
        -- split; [done|]. right. simpl. split; [done|].
           exists i, pl. split_and!.
           ++ by rewrite list_lookup_insert_ne.
           ++ by rewrite Nat.add_0_r.
           ++ eapply follows_insert; [done|]. right. left.
              destruct pl; simpl in Hlead; try done;
                destruct Hlead as (? & Hg' & _); congruence.
        -- exfalso. unfold late in Hlate. rewrite Hg, Hnc in Hlate.
           rewrite bool_decide_eq_true_2 in Hlate by done.
           replace (S (next_call c0) =? next_call c0)%nat with false
             in Hlate by (symmetry; apply Nat.eqb_neq; lia).
           simpl in Hlate. apply not_true_iff_false in Hlate.
           apply Hlate, existsb_exists. exists AtEnter.
           split; [|done]. apply list_elem_of_In.
           eapply list_elem_of_lookup_2; eauto.
      * destruct (wg_done (call_at (shared m) (next_call c0))) eqn:Hd;
          [|split; [done|]; right; split; [done|]; eauto].
        assert (Hcall : call_at (shared m) (next_call c0)
                        = mkCall true (Some v) st ∧ finished pl = true).
        { unfold call_at in *. destruct pl; simpl in Hlead; try done.
          - destruct Hlead as (_ & _ & _ & _ & Hc). by rewrite Hc in Hd.
          - destruct Hlead as (_ & _ & _ & Hc). by rewrite Hc in Hd.
          - destruct Hlead as (_ & _ & _ & Hc). by rewrite Hc in Hd.
          - destruct Hlead as (_ & _ & _ & Hc). by rewrite Hc.
          - destruct Hlead as (_ & _ & _ & Hc). by rewrite Hc. }
        destruct Hcall as [Hcall Hfin]. rewrite Hcall. simpl.
        split; [done|]. right. simpl. split; [done|].
        exists i, pl. split_and!.
        -- by rewrite list_lookup_insert_ne.
        -- by rewrite Nat.add_0_r.
        -- eapply follows_insert; [done|]. by right; right.
      * split; [done|]. right. split; [done|]. eauto.
Qed.

Lemma shared_call_run c0 k f v st env s : ∀ m,
  upfunc c0 = Some f →
  f k (upenv c0) = ((v, st), env) →
  shared_call c0 k (Some v, st) m →
  timely c0 k m s = true →
  shared_call c0 k (Some v, st) (run k m s).
Proof.
  induction s as [|tn s IH]; intros m Hup Hf Hinv Ht; [done|].
  simpl in Ht. apply andb_prop in Ht as [Hl Ht].
  apply negb_true_iff in Hl.
  apply IH; try done. eapply shared_call_step; eauto.
Qed.

(** Every step brings a goroutine closer to its return. *)
Lemma thread_step_rank k now c p c' p' n :
  thread_step k now c p = Some (c', p', n) → (rank p' < rank p)%nat.
Proof.
  destruct p; simpl.
  - destruct (g_m c !! k); intros [= <- <- <-]; simpl; lia.
  - destruct (wg_done _); [|done]. intros [= <- <- <-]. simpl. lia.
  - intros [= <- <- <-]. simpl. lia.
  - intros [= <- <- <-]. simpl. lia.
  - intros [= <- <- <-]. simpl. lia.
  - intros [= <- <- <-]. simpl. lia.
  - done.
Qed.

(** In a state that shares one call, the loader has run at most once, a
    goroutine that has returned has returned the pair of that run, and as
    long as a goroutine has not returned some goroutine can move. *)
Lemma shared_call_safe c0 k r m :
  shared_call c0 k r m →
  (loads m ≤ 1)%nat ∧
  (∀ r', Returned r' ∈ threads m → r' = r ∧ loads m = 1%nat) ∧
  (∀ p, p ∈ threads m → returned p = None →
        ∃ j p' now, threads m !! j = Some p' ∧
                    is_Some (thread_step k now (shared m) p')).
Proof.
  intros [_ [(_ & _ & _ & Hld & Hall)|(_ & i & pl & Hi & Hlead & Hfol)]].
  - split_and!; [lia| |].
    + intros r' Hr. by apply Hall in Hr.
    + intros p Hp _. pose proof (Hall p Hp) as ->.
      apply list_elem_of_lookup in Hp as [j Hj].
      exists j, AtEnter, 0. split; [done|]. simpl.
      destruct (g_m (shared m) !! k); eauto.
  - assert (Hfin : finished pl = true → loads m = 1%nat).
    { destruct pl; simpl in *; try done; by destruct Hlead as (_ & _ & ? & _). }
    split_and!.
    + destruct pl; simpl in Hlead; try done;
        destruct Hlead as (_ & _ & Hld & _); lia.
    + intros r' Hr. apply list_elem_of_lookup in Hr as [j Hj].
      destruct (decide (j = i)) as [->|Hji].
      * assert (pl = Returned r') as -> by congruence.
        simpl in Hlead. by destruct Hlead as (-> & _ & ? & _).
      * destruct (Hfol j _ Hji Hj) as [?|[?|[[= ->] Hf]]]; try done.
        split; [done|]. by apply Hfin.
    + intros p Hp Hnot.
      destruct (decide (finished pl = true ∧ returned pl ≠ None)) as [[Hf Hr]|Hn].
      * (* the leader has returned: a follower enters or stops waiting *)
        apply list_elem_of_lookup in Hp as [j Hj].
        exists j, p, 0. split; [done|].
        destruct (decide (j = i)) as [->|Hji].
        { assert (p = pl) by congruence. subst. done. }
        destruct (Hfol j p Hji Hj) as [->|[->|[-> _]]]; [| |done].
        -- simpl. destruct (g_m (shared m) !! k); eauto.
        -- simpl. destruct pl; simpl in Hlead, Hr, Hf; try done.
           destruct Hlead as (_ & _ & _ & Hc).
           unfold call_at. rewrite Hc. simpl. eauto.
      * (* the leader can move *)
        exists i, pl, 0. split; [done|].
        destruct pl; simpl in *; try done; eauto.
        exfalso. apply Hn. done.
Qed.

(** *** Timely runs can be completed *)

Lemma timely_app c0 k s s' : ∀ m,
  timely c0 k m (s ++ s') = timely c0 k m s && timely c0 k (run k m s) s'.
Proof.
  induction s as [|tn s IH]; intros m; simpl.
  - destruct s'; simpl; by destruct (late c0 k m).
  - rewrite IH. by rewrite andb_assoc.
Qed.

Lemma sum_rank_insert ts : ∀ j p p',
  ts !! j = Some p → (rank p' < rank p)%nat →
  (sum_rank (<[j := p']> ts) < sum_rank ts)%nat.
Proof.
  induction ts as [|q ts IH]; intros [|j] p p' Hj Hlt; simpl in *; try done.
  - injection Hj as ->. lia.
  - specialize (IH j p p' Hj Hlt). lia.
Qed.

Lemma sum_rank_zero ts :
  sum_rank ts = O → ∀ p, p ∈ ts → is_Some (returned p).
Proof.
  induction ts as [|q ts IH]; intros Hz p Hp.
  - by apply elem_of_nil in Hp.
  - simpl in Hz. apply elem_of_cons in Hp as [->|Hp].
    + destruct q; simpl in *; try lia. eauto.
    + apply IH; [lia|done].
Qed.

Lemma sum_rank_pos ts :
  sum_rank ts ≠ O → ∃ p, p ∈ ts ∧ returned p = None.
Proof.
  induction ts as [|q ts IH]; intros Hnz; [done|]. simpl in Hnz.
  destruct (decide (rank q = O)) as [Hq|Hq].
  - destruct IH as (p & Hp & Hr); [lia|].
    exists p. split; [apply elem_of_cons; by right|done].
  - exists q. split; [apply elem_of_cons; by left|].
    by destruct q.
Qed.

Lemma existsb_entering_insert ts : ∀ j p',
  existsb entering ts = false → entering p' = false →
  existsb entering (<[j := p']> ts) = false.
Proof.
  induction ts as [|q ts IH]; intros [|j] p' He Hp'; simpl in *; try done.
  - apply orb_false_iff in He as [_ He]. by rewrite Hp', He.
  - apply orb_false_iff in He as [Hq He]. by rewrite Hq, IH.
Qed.

Lemma thread_step_not_entering k now c p c' p' n :
  thread_step k now c p = Some (c', p', n) → entering p' = false.
Proof.
  destruct p; simpl.
  - by destruct (g_m c !! k); intros [= <- <- <-].
  - destruct (wg_done _); [|done]. by intros [= <- <- <-].
  - by intros [= <- <- <-].
  - by intros [= <- <- <-].
  - by intros [= <- <- <-].
  - by intros [= <- <- <-].
  - done.
Qed.

(** From a state that shares one call and in which no goroutine is late,
    some schedule lets every goroutine return without any being late:
    those that have yet to enter go first. *)
Lemma shared_call_complete c0 k f v st env :
  upfunc c0 = Some f →
  f k (upenv c0) = ((v, st), env) →
  ∀ N m, (total_rank m ≤ N)%nat →
         shared_call c0 k (Some v, st) m →
         late c0 k m = false →
         ∃ s, timely c0 k m s = true ∧ all_returned (run k m s).
Proof.
  intros Hup Hf. induction N as [|N IH]; intros m HN Hinv Hlate.
  - exists []. simpl. rewrite Hlate. split; [done|].
    intros p Hp. eapply sum_rank_zero; [|exact Hp].
    unfold total_rank in HN. lia.
  - destruct (decide (total_rank m = O)) as [Hz|Hnz].
    { exists []. simpl. rewrite Hlate. split; [done|].
      intros p Hp. by eapply sum_rank_zero. }
    assert (Hnext : ∃ j now p c' p' n,
               threads m !! j = Some p ∧
               thread_step k now (shared m) p = Some (c', p', n) ∧
               late c0 k (sched_step k m (j, now)) = false).
    { destruct (existsb entering (threads m)) eqn:Hent.
      - apply existsb_exists in Hent as (p & Hp & Hpe).
        destruct p; try done.
        apply list_elem_of_In, list_elem_of_lookup in Hp as [j Hj].
        destruct (thread_step k 0 (shared m) AtEnter)
          as [[[c' p'] n]|] eqn:Hs;
          [|simpl in Hs; by destruct (g_m (shared m) !! k)].
        exists j, 0, AtEnter, c', p', n. split_and!; [done..|].
        unfold sched_step. simpl fst. simpl snd. rewrite Hj, Hs.
        unfold late. simpl in Hs |- *.
        destruct (g_m (shared m) !! k) as [cid|] eqn:Hg;
          injection Hs as <- <- <-; simpl.
        + rewrite Hg. by rewrite bool_decide_eq_false_2.
        + rewrite lookup_insert_eq. by rewrite bool_decide_eq_false_2.
      - destruct (sum_rank_pos (threads m) Hnz) as (p & Hp & Hr).
        destruct (shared_call_safe c0 k (Some v, st) m Hinv)
          as (_ & _ & Hmove).
        destruct (Hmove p Hp Hr) as (j & p' & now & Hj & [[[c' q] n] Hs]).
        exists j, now, p', c', q, n. split_and!; [done..|].
        unfold sched_step. simpl fst. simpl snd. rewrite Hj, Hs.
        unfold late. simpl.
        rewrite existsb_entering_insert;
          [by rewrite andb_false_r|done|].
        by eapply thread_step_not_entering. }
    destruct Hnext as (j & now & p & c' & p' & n & Hj & Hs & Hl).
    destruct (IH (sched_step k m (j, now))) as (s & Hts & Hret).
    + assert (total_rank (sched_step k m (j, now)) < total_rank m)%nat;
        [|lia].
      unfold sched_step, total_rank. simpl fst. simpl snd.
      rewrite Hj, Hs. simpl.
      eapply sum_rank_insert; [done|]. by eapply thread_step_rank.
    + by eapply shared_call_step.
    + done.
    + exists ((j, now) :: s). simpl. rewrite Hlate, Hts. done.
Qed.

(** C9, amended. Goroutines call [getData] for the same absent key, with a
    loader configured and no call in flight at the start.  If along the run
    no goroutine is late (none has yet to enter [getData] once the first
    call has been removed from [g.m]), then the loader runs at most once,
    every goroutine that has returned has returned the pair of that one
    invocation, the loader having run exactly once, and the run can be
    continued, no goroutine being late, until all goroutines have
    returned. *)
Theorem single_flight_when_timely c0 k f v st env n s :
  upfunc c0 = Some f →
  f k (upenv c0) = ((v, st), env) →
  g_m c0 !! k = None →
  timely c0 k (start c0 n) s = true →
  (loads (run k (start c0 n) s) ≤ 1)%nat ∧
  (∀ r, Returned r ∈ threads (run k (start c0 n) s) →
        r = (Some v, st) ∧ loads (run k (start c0 n) s) = 1%nat) ∧
  (∃ s', timely c0 k (start c0 n) (s ++ s') = true ∧
         all_returned (run k (start c0 n) (s ++ s'))).
Proof.
  intros Hup Hf Hg Ht.
  assert (Hinv : shared_call c0 k (Some v, st) (run k (start c0 n) s)).
  { eapply shared_call_run; eauto. by apply shared_call_start. }
  destruct (shared_call_safe c0 k (Some v, st) _ Hinv) as (H1 & H2 & _).
  split_and!; [done|done|].
  assert (Hlate : late c0 k (run k (start c0 n) s) = false).
  { clear -Ht. revert Ht. generalize (start c0 n).
    induction s as [|tn s IH]; intros m; simpl.
    - rewrite andb_true_r. by intros ?%negb_true_iff.
    - intros [_ ?]%andb_prop. by apply IH. }
  destruct (shared_call_complete c0 k f v st env Hup Hf _ _
              (Nat.le_refl _) Hinv Hlate) as (s' & Hs' & Hret).
  exists s'. rewrite timely_app, Ht, Hs'. split; [done|].
  unfold run in *. by rewrite foldl_app.
Qed.

End Coalescing.

(** * The operations on concrete caches *)

Lemma wf_Put_all {K} `{Countable K} {V LS} (kvs : list (K * V)) :
  ∀ (c : Cache (K:=K) (V:=V) (LS:=LS)) now, wf c → wf (Put_all c kvs now).
Proof.
  induction kvs as [|[k v] kvs IH]; intros c now Hwf; [done|].
  simpl. by apply IH, wf_Put.
Qed.

Lemma wf_demo_late_limit : wf demo_late_limit.
Proof.
  apply (wf_store (Put_all (New O) [("a", "1"); ("b", "2"); ("c", "3")] 0));
    [done|]. apply wf_Put_all, wf_New.
Qed.

Lemma wf_demo_full : wf demo_full.
Proof.
  apply (wf_store (Put_all (New O) [("a", "1"); ("b", "2")] 0)); [done|].
  apply wf_Put_all, wf_New.
Qed.

Lemma wf_demo_room : wf demo_room.
Proof.
  apply wf_Put. apply (wf_store (New O)); [done|]. apply wf_New.
Qed.

Lemma wf_demo_loader : wf demo_loader.
Proof.
  apply wf_Put. apply (wf_store (New O)); [done|]. apply wf_New.
Qed.

Lemma wf_demo_sweep : wf demo_sweep.
Proof.
  apply wf_Put_all. apply (wf_store (New O)); [done|]. apply wf_New.
Qed.

(** ** The size limit *)

(** C1. With [SetMaxKeyCount(2)], inserting the three distinct keys a, b, c
    into an empty cache leaves one entry, not two: the keys a and b are
    both gone, although only a would have to go. *)
Theorem three_keys_limit_two :
  maxKeyCount demo_three_of_two = 2 ∧
  Len demo_three_of_two = 1 ∧
  keys_by_recency demo_three_of_two = ["c"].
Proof. vm_compute. done. Qed.

(** C2. With [SetMaxKeyCount(1)] and a time-to-live of one second,
    [Put("a", "1")] followed by [Get("a")] one nanosecond later does not
    return the value: the entry was evicted by its own [Put], and [Get]
    returns [nil] with status -1. *)
Theorem Put_then_Get_limit_one :
  maxKeyCount demo_limit_one = 1 ∧
  expire demo_limit_one = Second ∧
  Len demo_limit_one = 0 ∧
  ∀ race,
    Get demo_limit_one "a" 1 1 race
      = Some (mkGet (None, -1) demo_limit_one None).
Proof. split_and!; [by vm_compute..|]. intros race. by vm_compute. Qed.

(** C3, as stated, fails: in a cache holding three entries whose limit is
    then set to 1, a [Put] returns with three entries stored. *)
Lemma Put_exceeds_late_limit :
  wf demo_late_limit ∧
  0 < maxKeyCount demo_late_limit ∧
  maxKeyCount (Put demo_late_limit "d" "4" 10) = 1 ∧
  Len (Put demo_late_limit "d" "4" 10) = 3.
Proof. split; [apply wf_demo_late_limit|]. vm_compute. done. Qed.

(** A third key put into a full cache of limit 2: one entry goes, the one
    at the back, and the limit holds. *)
Lemma Put_keeps_limit_witness :
  wf demo_full ∧
  Len (Put demo_full "c" "3" 5) ≤ maxKeyCount demo_full ∧
  maxKeyCount (Put demo_full "c" "3" 5) = 2 ∧
  Len demo_full - 1 ≤ Len (Put demo_full "c" "3" 5) ∧
  Len (Put demo_full "c" "3" 5) = Len (Put_write demo_full "c" "3" 5) - 1.
Proof.
  split; [apply wf_demo_full|].
  destruct (Put_keeps_limit demo_full "c" "3" 5 wf_demo_full)
    as (Hlim & Hmax & Hone & _).
  split_and!; [apply Hlim; by vm_compute|exact Hmax|exact Hone|by vm_compute].
Defined.

(** Updating a in the full cache of limit 2 removes the entry of b. *)
Lemma Put_update_evicts_back_witness :
  wf demo_full ∧ data demo_full !! "a" = Some O ∧
  0 < maxKeyCount demo_full ∧ maxKeyCount demo_full ≤ Len demo_full ∧
  ∃ b vb, Back (lru (Put_write demo_full "a" "9" 5)) = Some b ∧
          heap (Put_write demo_full "a" "9" 5) !! b = Some vb ∧
          Len (Put demo_full "a" "9" 5) = Len demo_full - 1.
Proof.
  split_and!; [apply wf_demo_full|by vm_compute..|].
  destruct (Put_update_evicts_back demo_full "a" O "9" 5)
    as (b & vb & Hb & Hvb & _ & _ & _ & Hlen & _);
    [apply wf_demo_full|by vm_compute..|].
  by exists b, vb.
Defined.

(** ** Heartbeats *)

(** C4, as stated, fails.  The entry of a is written at time 0 with a
    time-to-live of one second.  A [Get] at 1.5 s finds it expired and moves
    its heartbeat to 3 s; the refresh it started writes back at 1.6 s and
    sets the heartbeat to 1.6 s, an earlier time than the one it held. *)
Lemma heartbeat_decreases_after_grace :
  heartbeat_of demo_loader "a" = Some 0 ∧
  heartbeat_of demo_loader_bumped "a" = Some 3000000000 ∧
  heartbeat_of (run_op demo_loader_bumped (OpRefresh "a" 1600000000)) "a"
    = Some 1600000000.
Proof. vm_compute. done. Qed.

(** A [Put] at time 5 on an entry written at time 0. *)
Lemma heartbeat_step_witness :
  wf demo_loader ∧
  heartbeat_of demo_loader "a" = Some 0 ∧
  heartbeat_of (run_op demo_loader (OpPut "a" "2" 5)) "a" = Some 5 ∧
  0 ≤ 5.
Proof.
  split_and!; [apply wf_demo_loader|by vm_compute..|].
  apply (heartbeat_step demo_loader (OpPut "a" "2" 5) "a" 0 5);
    [apply wf_demo_loader|by vm_compute..|].
  intros t Ht. vm_compute in Ht. injection Ht as <-. done.
Defined.

(** ** Expired entries *)

(** C5, as stated, fails.  The entry of a is written at time 0 with a
    time-to-live of one second and the loader [GetDataSucc].  A [Get] at
    1.5 s finds it expired at both readings of the clock, moves its
    heartbeat and starts the refresh.  The goroutine runs, its [Put] at
    1.6 s, before [Get] reads [v.value] on line 130: [Get] returns the
    loader's value and not the stale one. *)
Lemma Get_returns_refreshed_value :
  entry demo_loader "a" = Some (mkValue "a" "1" 0) ∧
  expire demo_loader = Second ∧
  upfunc demo_loader = Some GetDataSucc ∧
  ∃ r, Get demo_loader "a" 1500000000 1500000000 (Some 1600000000)
         = Some r ∧
       got r = (Some "a_value", 0) ∧
       spawned r = Some "a" ∧
       entry (after r) "a" = Some (mkValue "a" "a_value" 1600000000).
Proof.
  split_and!; [by vm_compute..|].
  eexists. split; [by vm_compute|]. split_and!; by vm_compute.
Qed.

(** [Get] 1.5 s after the [Put], with a time-to-live of 1 s and a loader:
    once returning before the refresh has run, once after. *)
Lemma Get_expired_with_loader_witness :
  data demo_loader !! "a" = Some O ∧
  heap demo_loader !! O = Some (mkValue "a" "1" 0) ∧
  expire demo_loader ≠ 0 ∧
  0 + expire demo_loader < 1500000000 ∧
  upfunc demo_loader = Some GetDataSucc ∧
  (∃ r, Get demo_loader "a" 1500000000 1500000000 None = Some r ∧
        got r = (Some "1", 0) ∧ spawned r = Some "a" ∧
        after r = Get_bump demo_loader O (mkValue "a" "1" 0)) ∧
  (∃ r, Get demo_loader "a" 1500000000 1500000000 (Some 1600000000)
          = Some r ∧
        got r = (Some "a_value", 0) ∧ spawned r = Some "a" ∧
        after r = upValue (Get_bump demo_loader O (mkValue "a" "1" 0))
                          "a" 1600000000).
Proof.
  split_and!; [by vm_compute..| |].
  - destruct (Get_expired_with_loader demo_loader "a" O (mkValue "a" "1" 0)
                GetDataSucc 1500000000 1500000000 None)
      as (r & Hr & _ & Hrest); [by vm_compute..|].
    change (expired demo_loader (mkValue "a" "1" 0) 1500000000)
      with true in Hrest.
    destruct Hrest as (Hs & _ & _ & _ & _ & _ & Ha & Hg).
    by exists r.
  - destruct (Get_expired_with_loader demo_loader "a" O (mkValue "a" "1" 0)
                GetDataSucc 1500000000 1500000000 (Some 1600000000))
      as (r & Hr & _ & Hrest); [by vm_compute..|].
    change (expired demo_loader (mkValue "a" "1" 0) 1500000000)
      with true in Hrest.
    destruct Hrest as (Hs & _ & _ & _ & _ & _ & Ha & Hg).
    by exists r.
Defined.

(** [Get] 1.5 s after the [Put], with a time-to-live of 1 s and no loader. *)
Lemma Get_expired_no_loader_witness :
  entry demo_plain "a" = Some (mkValue "a" "1" 0) ∧
  expire demo_plain ≠ 0 ∧
  0 + expire demo_plain < 1500000000 ∧
  upfunc demo_plain = None ∧
  Get demo_plain "a" 1500000000 1500000000 None
    = Some (mkGet (Some "1", -1) demo_plain None).
Proof.
  split_and!; [by vm_compute..|].
  apply (Get_expired_no_loader demo_plain "a" (mkValue "a" "1" 0));
    by vm_compute.
Defined.

(** ** The loader *)

(** C7 fails in a cache whose limit is 1, through the comparison on line
    164 that also makes C1 and C2 fail.  [Get] of the absent key k runs the
    loader, which succeeds, and returns its value with status 0, but the
    [Put] of line 193 removes the entry it has just written: the store is
    left as it was, empty, a second [Get] runs the loader again, and the
    same holds of the background refresh. *)
Theorem loader_success_not_stored_limit_one :
  upfunc demo_loader_limit_one = Some GetDataSucc ∧
  GetDataSucc "k" (upenv demo_loader_limit_one) = (("k_value", 0), 1%nat) ∧
  (∀ race, ∃ r,
     Get demo_loader_limit_one "k" 0 0 race = Some r ∧
     got r = (Some "k_value", 0) ∧
     entry (after r) "k" = None ∧
     Len (after r) = 0 ∧
     store (after r) = store (Put_evict (Put_write demo_loader_limit_one
                                           "k" "k_value" 0)) ∧
     entry (Put_write demo_loader_limit_one "k" "k_value" 0) "k"
       = Some (mkValue "k" "k_value" 0) ∧
     ∃ r2, Get (after r) "k" 1 1 race = Some r2 ∧
           got r2 = (Some "k_value", 0) ∧
           upenv (after r2) = 2%nat ∧
           entry (after r2) "k" = None) ∧
  entry (upValue demo_loader_limit_one "k" 0) "k" = None.
Proof.
  split_and!; [by vm_compute..| |by vm_compute].
  intros race. eexists. split; [by vm_compute|].
  split_and!; [by vm_compute..|].
  eexists. split; [by vm_compute|]. split_and!; by vm_compute.
Qed.

(** ** The sweep *)

(** A sweep at time 6 over entries written at 0 and 1, living 5 ns. *)
Lemma clearExpired_removes_expired_witness :
  wf demo_sweep ∧
  map_to_list (data demo_sweep) ≡ₚ map_to_list (data demo_sweep) ∧
  expire demo_sweep ≠ 0 ∧
  lru (clearExpired (map_to_list (data demo_sweep)) demo_sweep 6)
    = filter (λ e, stale_at demo_sweep 6 e = false) (lru demo_sweep).
Proof.
  split_and!; [apply wf_demo_sweep|done|by vm_compute|].
  destruct (clearExpired_removes_expired demo_sweep
              (map_to_list (data demo_sweep)) 6) as [Hexp _];
    [apply wf_demo_sweep|done|].
  destruct Hexp as (_ & Hl & _); [by vm_compute|]. exact Hl.
Defined.

(** ** Single flight *)

(** C9, as stated, fails.  Two goroutines call [Get] for the absent key k,
    no call being in flight; both have looked the key up, found it absent
    and are about to run [getData].  Goroutine 0 runs [getData] to its end,
    removing its call from [g.m], before goroutine 1 locks [g.mu]:
    goroutine 1 finds no call in flight and runs the loader again.  The
    loader has run twice and the two goroutines return different pairs. *)
Lemma loader_runs_twice :
  upfunc demo_once = Some GetDataOnce ∧
  data demo_once !! "k" = None ∧
  g_m demo_once !! "k" = None ∧
  threads (run "k" (start demo_once 2) sched_one_after_the_other)
    = [Returned (Some "first", 0); Returned (Some "again", 0)] ∧
  loads (run "k" (start demo_once 2) sched_one_after_the_other) = 2%nat.
Proof. vm_compute. done. Qed.

(** Three goroutines that all enter before the first one is done. *)
Lemma single_flight_when_timely_witness :
  upfunc demo_once = Some GetDataOnce ∧
  GetDataOnce "k" (upenv demo_once) = (("first", 0), 1%nat) ∧
  g_m demo_once !! "k" = None ∧
  timely demo_once "k" (start demo_once 3) sched_overlapping = true ∧
  (loads (run "k" (start demo_once 3) sched_overlapping) ≤ 1)%nat ∧
  ∀ r, Returned r ∈ threads (run "k" (start demo_once 3) sched_overlapping) →
       r = (Some "first", 0).
Proof.
  destruct (single_flight_when_timely demo_once "k" GetDataOnce "first" 0
              1%nat 3 sched_overlapping) as (Hle & Hsame & _);
    [by vm_compute..|].
  split_and!; [by vm_compute..|done|].
  intros r Hr. by destruct (Hsame r Hr).
Defined.

(** * The order of the keys *)

Section Recency.

Context {K : Type} `{Countable K} {V LS : Type}.
Implicit Types (c : Cache (K:=K) (V:=V) (LS:=LS)) (l : list loc) (e x : loc).
Implicit Types (h : gmap loc (Value (K:=K) (V:=V))).

Local Abbreviation keys_of h l := (omap (λ e, key <$> h !! e) l).

Lemma keys_of_ext h1 h2 l :
  (∀ x, x ∈ l → key <$> h1 !! x = key <$> h2 !! x) →
  keys_of h1 l = keys_of h2 l.
Proof.
  induction l as [|y l IH]; intros Hext; [done|]. simpl.
  rewrite (Hext y) by (apply elem_of_cons; by left).
  assert (IH' : keys_of h1 l = keys_of h2 l)
    by (apply IH; intros x Hx; apply Hext, elem_of_cons; by right).
  destruct (key <$> h2 !! y); [f_equal|]; exact IH'.
Qed.

Lemma filter_all {A} (P : A → Prop) `{∀ a, Decision (P a)} (s : list A) :
  (∀ a, a ∈ s → P a) → filter P s = s.
Proof.
  induction s as [|y s IH]; intros Hall; [done|].
  rewrite filter_cons, decide_True by (apply Hall, elem_of_cons; by left).
  f_equal. apply IH. intros a Ha. apply Hall, elem_of_cons. by right.
Qed.

(** Unlinking an element removes its key, and only it, from the keys. *)
Lemma keys_of_Remove h l e v :
  h !! e = Some v →
  (∀ x, x ∈ l → ∃ vx, h !! x = Some vx ∧ (key vx = key v → x = e)) →
  keys_of h (Remove e l) = filter (λ k', k' ≠ key v) (keys_of h l).
Proof.
  intros He. unfold Remove. induction l as [|y l IH]; intros Hl; [done|].
  destruct (Hl y) as (vy & Hvy & Hinj); [apply elem_of_cons; by left|].
  assert (IH' := IH (λ x Hx, Hl x (proj2 (elem_of_cons l x y) (or_intror Hx)))).
  rewrite filter_cons. simpl. rewrite Hvy. simpl. rewrite filter_cons.
  destruct (decide (y = e)) as [->|Hne].
  - assert (vy = v) as -> by congruence.
    rewrite decide_False by (intros ?; done).
    rewrite decide_False by (intros ?; done). done.
  - rewrite decide_True by done.
    rewrite decide_True by (intros ?; by apply Hne, Hinj).
    simpl. rewrite Hvy. simpl. by f_equal.
Qed.

Lemma wf_key_inj c e v :
  wf c → e ∈ lru c → heap c !! e = Some v →
  ∀ x, x ∈ lru c → ∃ vx, heap c !! x = Some vx ∧ (key vx = key v → x = e).
Proof.
  intros Hwf He Hv x Hx.
  destruct (wf_lru c Hwf _ Hx) as (vx & Hvx & Hdx).
  destruct (wf_lru c Hwf _ He) as (v' & Hv' & Hde).
  exists vx. split; [done|]. intros Heq.
  assert (v' = v) by congruence. subst v'. congruence.
Qed.

Lemma elem_of_keys c k :
  wf c → k ∈ keys_by_recency c ↔ is_Some (data c !! k).
Proof.
  intros Hwf. unfold keys_by_recency. rewrite list_elem_of_omap. split.
  - intros (e & He & Hk). destruct (wf_lru c Hwf _ He) as (v & Hv & Hd).
    rewrite Hv in Hk. simpl in Hk. injection Hk as <-. eauto.
  - intros [e He]. destruct (wf_data c Hwf _ _ He) as (Hin & v & Hv & Hk).
    exists e. split; [done|]. by rewrite Hv, <- Hk.
Qed.

Lemma length_keys c : wf c → length (keys_by_recency c) = length (lru c).
Proof.
  intros Hwf. unfold keys_by_recency.
  assert (Hall : ∀ x, x ∈ lru c → is_Some (heap c !! x)).
  { intros x Hx. destruct (wf_lru c Hwf _ Hx) as (v & Hv & _). eauto. }
  induction (lru c) as [|y l IH]; [done|]. simpl.
  destruct (Hall y) as [vy Hvy]; [apply elem_of_cons; by left|].
  rewrite Hvy. simpl. f_equal. apply IH.
  intros x Hx. apply Hall, elem_of_cons. by right.
Qed.

Lemma NoDup_keys c : wf c → NoDup (keys_by_recency c).
Proof.
  intros Hwf. unfold keys_by_recency.
  assert (Hall : ∀ x, x ∈ lru c →
            ∃ v, heap c !! x = Some v ∧ data c !! key v = Some x)
    by apply Hwf.
  pose proof (wf_nodup c Hwf) as Hnd.
  induction (lru c) as [|y l IH]; [apply NoDup_nil_2|]. simpl.
  destruct (Hall y) as (vy & Hvy & Hdy); [apply elem_of_cons; by left|].
  rewrite Hvy. simpl. apply NoDup_cons in Hnd as [Hy Hnd].
  apply NoDup_cons. split.
  - rewrite list_elem_of_omap. intros (x & Hx & Hk).
    destruct (Hall x) as (vx & Hvx & Hdx); [apply elem_of_cons; by right|].
    rewrite Hvx in Hk. simpl in Hk. injection Hk as Hk.
    rewrite Hk in Hdx. congruence.
  - apply IH; [|done]. intros x Hx. apply Hall, elem_of_cons. by right.
Qed.

(** The keys after the write of [Put], before the eviction. *)
Lemma keys_Put_write c k v now :
  wf c →
  keys_by_recency (Put_write c k v now)
    = k :: filter (λ k', k' ≠ k) (keys_by_recency c).
Proof.
  intros Hwf. unfold Put_write, keys_by_recency.
  destruct (data c !! k) as [e|] eqn:Hk; simpl.
  - destruct (wf_data c Hwf _ _ Hk) as (Hin & v0 & Hv0 & Hkey).
    unfold MoveToFront. rewrite decide_True by done. simpl.
    rewrite lookup_alter, decide_True, Hv0 by done. simpl.
    rewrite Hkey. f_equal.
    rewrite (keys_of_ext _ (heap c)).
    + rewrite (keys_of_Remove (heap c) (lru c) e v0 Hv0).
      * by rewrite Hkey.
      * by apply wf_key_inj.
    + intros x _. rewrite lookup_alter. case_decide; [subst|done].
      by destruct (heap c !! x).
  - rewrite lookup_insert_eq. simpl. f_equal.
    rewrite (keys_of_ext _ (heap c)).
    + symmetry. apply filter_all. intros k' Hk' ->.
      apply (elem_of_keys c k Hwf) in Hk'. rewrite Hk in Hk'.
      by destruct Hk'.
    + intros x Hx. rewrite lookup_insert_ne; [done|]. intros <-.
      destruct (wf_lru c Hwf _ Hx) as (vx & Hvx & _).
      assert (next c < next c)%nat by (apply (wf_next c Hwf); eauto). lia.
Qed.

(** The element at the back holds the last key. *)
Lemma keys_Back c b vb :
  wf c → Back (lru c) = Some b → heap c !! b = Some vb →
  keys_by_recency c = keys_of (heap c) (Remove b (lru c)) ++ [key vb].
Proof.
  intros Hwf Hb Hvb. unfold keys_by_recency.
  apply last_Some in Hb as [l' Hl]. pose proof (wf_nodup c Hwf) as Hnd.
  rewrite Hl in Hnd |- *. apply NoDup_app in Hnd as (_ & Hdisj & _).
  unfold Remove. rewrite filter_app, omap_app.
  rewrite filter_all.
  - rewrite filter_cons, decide_False by (intros ?; done).
    simpl. rewrite Hvb. simpl. by rewrite app_nil_r.
  - intros x Hx ->. apply (Hdisj b Hx), elem_of_cons. by left.
Qed.

(** X1. Every cache obtained from a new one by any use (configuration,
    [Put], [Get], refresh write-back, [Del], [Clear], sweep) keeps the map
    and the list in one-to-one correspondence: the keys of the list are
    distinct, there are [Len] of them, and a key is in the list exactly when
    it has an entry. *)
Theorem used_one_to_one (env : LS) c :
  used (New env) c →
  wf c ∧
  NoDup (keys_by_recency c) ∧
  Len c = Z.of_nat (length (keys_by_recency c)) ∧
  ∀ k, k ∈ keys_by_recency c ↔ is_Some (entry c k).
Proof.
  intros Hused.
  assert (Hwf : wf c).
  { induction Hused as [|c o _ IH|c k _ IH|c _ IH|c order now _ IH Hperm
                        |c e _ IH|c cnt _ IH|c f _ IH|c d _ IH].
    - apply wf_New.
    - by apply wf_run_op.
    - by apply wf_Del.
    - by apply wf_Clear.
    - by apply wf_clearExpired.
    - by apply (wf_store c).
    - by apply (wf_store c).
    - by apply (wf_store c).
    - unfold SetClearInterval. destruct (d <? Second); [done|].
      by apply (wf_store c). }
  split_and!; [done|by apply NoDup_keys| |].
  - rewrite wf_Len, length_keys by done. done.
  - intros k. rewrite elem_of_keys by done. split.
    + intros [e He]. destruct (wf_data c Hwf _ _ He) as (_ & v & Hv & _).
      exists v. apply entry_Some. eauto.
    + intros [v (e & He & _)%entry_Some]. eauto.
Qed.

(** X2. [Put] in terms of the keys, ordered from most to least recently
    touched: the written key moves, or is added, to the front; then, if the
    limit is positive and reached by the number of keys, the last key is
    dropped together with its entry; otherwise nothing is dropped. *)
Theorem Put_recency c k v now :
  wf c →
  (0 < maxKeyCount c ∧
   maxKeyCount c
     ≤ Z.of_nat (S (length (filter (λ k', k' ≠ k) (keys_by_recency c)))) →
     ∃ victim,
       k :: filter (λ k', k' ≠ k) (keys_by_recency c)
         = keys_by_recency (Put c k v now) ++ [victim] ∧
       entry (Put c k v now) victim = None) ∧
  (¬ (0 < maxKeyCount c ∧
      maxKeyCount c
        ≤ Z.of_nat (S (length (filter (λ k', k' ≠ k) (keys_by_recency c))))) →
     keys_by_recency (Put c k v now)
       = k :: filter (λ k', k' ≠ k) (keys_by_recency c)).
Proof.
  intros Hwf.
  pose proof (wf_Put_write c k v now Hwf) as Hwf'.
  pose proof (keys_Put_write c k v now Hwf) as Hks.
  pose proof (maxKeyCount_Put_write c k v now) as HM.
  assert (HL : Len (Put_write c k v now)
               = Z.of_nat (S (length (filter (λ k', k' ≠ k)
                                        (keys_by_recency c))))).
  { rewrite wf_Len, <- length_keys, Hks by done. done. }
  rewrite <- HL, <- Hks. unfold Put. split.
  - intros [Hpos Hle].
    destruct (Put_evict_spec (Put_write c k v now)) as
      (b & vb & Hb & Hvb & _ & Hev & _); [done|lia|lia|].
    exists (key vb). rewrite Hev. split.
    + exact (keys_Back _ b vb Hwf' Hb Hvb).
    + unfold entry. simpl. by rewrite lookup_delete_eq.
  - intros Hn. rewrite Put_evict_skip; [done|]. by rewrite HM.
Qed.

(** X3. [Get] on a key whose entry has not expired (or with no time-to-live
    configured) returns the value with status 0, starts no refresh, runs no
    loader and changes no entry; with a positive limit the key moves to the
    front of the order, and otherwise the order is unchanged. *)
Theorem Get_fresh_hit c k v now1 now2 race :
  wf c →
  entry c k = Some v →
  expire c = 0 ∨ ¬ (heartbeat v + expire c < now1) →
  ∃ r, Get c k now1 now2 race = Some r ∧
       got r = (Some (value v), 0) ∧
       spawned r = None ∧
       heap (after r) = heap c ∧
       data (after r) = data c ∧
       upenv (after r) = upenv c ∧
       keys_by_recency (after r)
         = if 0 <? maxKeyCount c
           then k :: filter (λ k', k' ≠ k) (keys_by_recency c)
           else keys_by_recency c.
Proof.
  intros Hwf Hent Hfresh. pose proof (entry_key c k v Hwf Hent) as Hkey.
  apply entry_Some in Hent as (e & He & Hv).
  destruct (wf_data c Hwf _ _ He) as (Hin & _).
  unfold Get. rewrite He, Hv.
  assert (Hc : negb (expire c =? 0) && expired c v now1 = false).
  { destruct Hfresh as [->|Hn]; [done|]. unfold expired.
    rewrite (proj2 (Z.ltb_ge _ _)) by lia. apply andb_false_r. }
  rewrite Hc. eexists. split; [done|]. simpl.
  destruct (0 <? maxKeyCount c); [|done]. split_and!; try done.
  unfold keys_by_recency. simpl. unfold MoveToFront.
  rewrite decide_True by done. simpl. rewrite Hv. simpl.
  rewrite Hkey. f_equal.
  pose proof (keys_of_Remove (heap c) (lru c) e v Hv
                (wf_key_inj c e v Hwf Hin Hv)) as HR.
  rewrite Hkey in HR. exact HR.
Qed.

(** X4. [Del] removes the entry of its key and nothing else: the other
    entries and their order are as before, the count drops by one if the key
    was stored and not at all otherwise, and with no loader a [Get] of the
    key then finds nothing. *)
Theorem Del_removes c k :
  wf c →
  entry (Del c k) k = None ∧
  (∀ k', k' ≠ k → entry (Del c k) k' = entry c k') ∧
  keys_by_recency (Del c k) = filter (λ k', k' ≠ k) (keys_by_recency c) ∧
  Len (Del c k) = match data c !! k with
                  | Some _ => Len c - 1
                  | None => Len c
                  end ∧
  (upfunc c = None →
   ∀ now1 now2 race,
     Get (Del c k) k now1 now2 race
       = Some (mkGet (None, -1) (Del c k) None)).
Proof.
  intros Hwf.
  assert (Hd : data (Del c k) !! k = None).
  { unfold Del. destruct (data c !! k) eqn:Hk; [|done].
    simpl. apply lookup_delete_eq. }
  assert (Hup : upfunc (Del c k) = upfunc c).
  { unfold Del. by destruct (data c !! k). }
  split_and!.
  - unfold entry. by rewrite Hd.
  - intros k' Hne. unfold Del, entry.
    destruct (data c !! k) eqn:Hk; [|done]. simpl.
    by rewrite lookup_delete_ne.
  - unfold Del. destruct (data c !! k) as [e|] eqn:Hk.
    + destruct (wf_data c Hwf _ _ Hk) as (Hin & v & Hv & Hkey).
      pose proof (keys_of_Remove (heap c) (lru c) e v Hv
                    (wf_key_inj c e v Hwf Hin Hv)) as HR.
      rewrite Hkey in HR. exact HR.
    + symmetry. apply filter_all. intros k' Hk' ->.
      apply (elem_of_keys c k Hwf) in Hk'. rewrite Hk in Hk'.
      by destruct Hk'.
  - unfold Del, Len. destruct (data c !! k) eqn:Hk; [|done]. simpl.
    rewrite map_size_delete_Some by eauto.
    assert (size (data c) ≠ O).
    { intros Hz. apply map_size_empty_inv in Hz. rewrite Hz in Hk.
      by rewrite lookup_empty in Hk. }
    lia.
  - intros Hnone now1 now2 race. unfold Get. by rewrite Hd, Hup, Hnone.
Qed.

(** X5. After [Clear] the cache holds no entry, whatever it held and however
    it is configured: [Len] is 0, no key is left in the order and no key has
    an entry.  With no loader configured a [Get] of any key then finds
    nothing and leaves the cache as it is. *)
Theorem Clear_empties c :
  Len (Clear c) = 0 ∧
  keys_by_recency (Clear c) = [] ∧
  (∀ k, entry (Clear c) k = None) ∧
  (upfunc c = None →
   ∀ k now1 now2 race,
     Get (Clear c) k now1 now2 race
       = Some (mkGet (None, -1) (Clear c) None)).
Proof.
  split_and!.
  - unfold Len. simpl. by rewrite map_size_empty.
  - done.
  - intros k. unfold entry. simpl. by rewrite lookup_empty.
  - intros Hup k now1 now2 race. unfold Get. simpl.
    rewrite lookup_empty. by rewrite Hup.
Qed.

End Recency.

(** * How the operations compose *)

Section Behaviour.

Context {K : Type} `{Countable K} {V LS : Type}.
Implicit Types (c : Cache (K:=K) (V:=V) (LS:=LS)) (l : list loc) (e x : loc).

Lemma config_Put c k v now :
  expire (Put c k v now) = expire c ∧ upfunc (Put c k v now) = upfunc c ∧
  upenv (Put c k v now) = upenv c.
Proof. by destruct (Put_set_store c k v now) as (l & h & n & d & ->). Qed.

(** What [Get] returns for a key that has an entry.  The status is 0 unless
    the entry has expired and no loader is configured.  The value is the one
    of the entry, unless [Get] starts a refresh that has run and succeeded
    by the time [Get] reads the value: then it is the loader's. *)
Lemma Get_entry c k v now1 now2 race :
  entry c k = Some v →
  ∃ r, Get c k now1 now2 race = Some r ∧
       (got r).2 = (if negb (expire c =? 0) && expired c v now1
                    then match upfunc c with Some _ => 0 | None => -1 end
                    else 0) ∧
       (got r).1 = Some (match upfunc c, race with
                         | Some f, Some _ =>
                             if negb (expire c =? 0) && expired c v now1
                                && expired c v now2
                                && ((f k (upenv c)).1.2 =? 0)
                             then (f k (upenv c)).1.1
                             else value v
                         | _, _ => value v
                         end) ∧
       (negb (expire c =? 0) && expired c v now1 = false →
        got r = (Some (value v), 0) ∧ spawned r = None ∧
        upenv (after r) = upenv c).
Proof.
  intros (e & He & Hv)%entry_Some.
  destruct (negb (expire c =? 0) && expired c v now1) eqn:Hc.
  - destruct (upfunc c) as [f|] eqn:Hup.
    + apply andb_prop in Hc as [Hexp Hlt].
      apply negb_true_iff, Z.eqb_neq in Hexp. apply Z.ltb_lt in Hlt.
      rewrite (Get_refresh c k e v f now1 now2 race) by done.
      destruct (expired c v now2), race as [t|];
        eexists; (split; [done|]); by split_and!.
    + unfold Get. rewrite He, Hv, Hc, Hup.
      destruct race; eexists; (split; [done|]); by split_and!.
  - unfold Get. rewrite He, Hv, Hc.
    eexists. split; [done|]. simpl. split_and!; try done.
    + by destruct (upfunc c), race.
    + intros _. split_and!; try done. by destruct (0 <? maxKeyCount c).
Qed.

(** X6. A [Put] followed by a [Get] of the same key, the limit not being 1.
    The status is 0, except that it is -1 when a time-to-live is configured,
    has elapsed since the [Put], and no loader is configured.  The value is
    the one written, whatever the time of the [Get], with one exception: a
    time-to-live is configured and has elapsed at both clock readings of the
    [Get], a loader is configured, and the refresh that the [Get] starts has
    run and succeeded before the [Get] reads the value; the [Get] then
    returns the loader's value. *)
Theorem Put_Get_value c k v now now1 now2 race :
  wf c →
  maxKeyCount c ≠ 1 →
  ∃ r, Get (Put c k v now) k now1 now2 race = Some r ∧
       (got r).2 = (if negb (expire c =? 0) && (now + expire c <? now1)
                    then match upfunc c with Some _ => 0 | None => -1 end
                    else 0) ∧
       (got r).1 = Some (match upfunc c, race with
                         | Some f, Some _ =>
                             if negb (expire c =? 0) && (now + expire c <? now1)
                                && (now + expire c <? now2)
                                && ((f k (upenv c)).1.2 =? 0)
                             then (f k (upenv c)).1.1
                             else v
                         | _, _ => v
                         end).
Proof.
  intros Hwf Hne.
  destruct (Get_entry (Put c k v now) k (mkValue k v now) now1 now2 race)
    as (r & Hr & Hst & Hval & _); [by apply entry_Put_same|].
  destruct (config_Put c k v now) as (HE & HU & HV).
  unfold expired in Hst, Hval. simpl in Hst, Hval.
  rewrite HE, HU in Hst. rewrite HE, HU, HV in Hval. eauto.
Qed.

(** X7. [Put] never changes the entry of another key: it leaves it as it is
    or removes it, and it removes at most one. *)
Theorem Put_frame c k v now :
  wf c →
  (∀ k', k' ≠ k →
         entry (Put c k v now) k' = entry c k' ∨
         entry (Put c k v now) k' = None) ∧
  (∀ k1 k2, k1 ≠ k → k2 ≠ k →
            is_Some (entry c k1) → is_Some (entry c k2) →
            entry (Put c k v now) k1 = None →
            entry (Put c k v now) k2 = None →
            k1 = k2).
Proof.
  intros Hwf.
  assert (Hw : ∀ k', k' ≠ k → entry (Put_write c k v now) k' = entry c k').
  { intros k' Hne. rewrite entry_Put_write by done.
    by rewrite decide_False by (intros ?; by apply Hne). }
  split.
  - intros k' Hne.
    destruct (entry_Put_evict (Put_write c k v now) k') as [Heq|Heq].
    + left. unfold Put. by rewrite Heq, Hw.
    + by right.
  - intros k1 k2 Hn1 Hn2 Hs1 Hs2 He1 He2.
    assert (Hvictim : ∃ kb, ∀ k', entry (Put c k v now) k' = None →
                                  is_Some (entry (Put_write c k v now) k') →
                                  k' = kb).
    { unfold Put, Put_evict. destruct (_ && _).
      - destruct (Back _) as [b|].
        + destruct (heap (Put_write c k v now) !! b) as [vb|].
          * exists (key vb). intros k' Hnone Hsome. unfold entry in *.
            simpl in Hnone. rewrite lookup_delete in Hnone.
            case_decide; [done|]. rewrite Hnone in Hsome. by destruct Hsome.
          * exists k. intros k' Hnone Hsome. unfold entry in *.
            simpl in Hnone. rewrite Hnone in Hsome. by destruct Hsome.
        + exists k. intros k' Hnone Hsome. rewrite Hnone in Hsome.
          by destruct Hsome.
      - exists k. intros k' Hnone Hsome. rewrite Hnone in Hsome.
        by destruct Hsome. }
    destruct Hvictim as [kb Hkb].
    rewrite <- (Hw k1 Hn1) in Hs1. rewrite <- (Hw k2 Hn2) in Hs2.
    rewrite (Hkb k1 He1 Hs1), (Hkb k2 He2 Hs2). done.
Qed.

(** X8. With no loader configured, [Get] always returns, starts nothing and
    only reads: the elements and the map are unchanged, and the list is at
    most reordered. *)
Theorem Get_without_loader c k now1 now2 race :
  wf c →
  upfunc c = None →
  ∃ r, Get c k now1 now2 race = Some r ∧
       spawned r = None ∧
       heap (after r) = heap c ∧
       data (after r) = data c ∧
       lru (after r) ≡ₚ lru c ∧
       ((got r).2 = 0 ∨ (got r).2 = -1).
Proof.
  intros Hwf Hup. unfold Get. rewrite Hup.
  destruct (data c !! k) as [e|] eqn:Hk.
  - destruct (wf_data c Hwf _ _ Hk) as (Hin & v & Hv & _). rewrite Hv.
    destruct (_ && _).
    + eexists. split_and!; try done. by right.
    + eexists. split_and!; try done;
        destruct (0 <? maxKeyCount c); try done; [|by left..]. simpl.
      apply NoDup_Permutation.
      * apply NoDup_MoveToFront, Hwf.
      * apply Hwf.
      * intros x. apply elem_of_MoveToFront.
  - eexists. split_and!; try done. by right.
Qed.

(** ** The sweep, seen from the entries *)

(** X9. After one run of the sweep with a time-to-live configured, a key has
    no entry if its entry had expired and has its entry unchanged otherwise:
    no entry left in the store is expired at the time of the sweep. *)
Theorem clearExpired_entries c order now k :
  wf c →
  order ≡ₚ map_to_list (data c) →
  expire c ≠ 0 →
  entry (clearExpired order c now) k
    = match entry c k with
      | Some v => if expired c v now then None else Some v
      | None => None
      end ∧
  ∀ v, entry (clearExpired order c now) k = Some v →
       ¬ (heartbeat v + expire c < now).
Proof.
  intros Hwf Hperm Hexp.
  assert (Heq : entry (clearExpired order c now) k
                = match entry c k with
                  | Some v => if expired c v now then None else Some v
                  | None => None
                  end).
  { rewrite clearExpired_filter by done. unfold entry. simpl.
    rewrite map_lookup_filter.
    destruct (data c !! k) as [e|] eqn:Hk; simpl; [|done].
    destruct (wf_data c Hwf _ _ Hk) as (_ & v & Hv & _). rewrite Hv.
    assert (Hs : stale_at c now e = expired c v now)
      by (unfold stale_at; by rewrite Hv).
    destruct (expired c v now) eqn:Hx.
    - rewrite option_guard_False by (simpl; rewrite Hs; done). done.
    - rewrite option_guard_True by (simpl; by rewrite Hs). simpl.
      by rewrite Hv. }
  split; [done|]. intros v Hv. rewrite Heq in Hv.
  destruct (entry c k) as [v'|]; [|done].
  destruct (expired c v' now) eqn:Hx; [done|]. injection Hv as <-.
  unfold expired in Hx. apply Z.ltb_ge in Hx. lia.
Qed.

(** X10. A second run of the sweep at the same time changes nothing. *)
Theorem clearExpired_idempotent c order order' now :
  wf c →
  order ≡ₚ map_to_list (data c) →
  order' ≡ₚ map_to_list (data (clearExpired order c now)) →
  clearExpired order' (clearExpired order c now) now
    = clearExpired order c now.
Proof.
  intros Hwf Hperm Hperm'.
  destruct (decide (expire c = 0)) as [Hz|Hnz].
  { assert (E0 : ∀ o, clearExpired o c now = c)
      by (intros o; unfold clearExpired; by rewrite Hz).
    by rewrite !E0. }
  pose proof (wf_clearExpired c order now Hwf Hperm) as Hwf'.
  revert Hperm' Hwf'. rewrite (clearExpired_filter c order now) by done.
  intros Hperm' Hwf'. rewrite clearExpired_filter by done.
  unfold set_store. simpl. f_equal.
  - apply filter_all. by intros x [Hx _]%list_elem_of_filter.
  - apply map_filter_id. by intros k e [_ Hx]%map_lookup_filter_Some.
Qed.

(** ** The loader and the cache *)

Lemma fresh_cond (ex now now1 : Z) :
  ex = 0 ∨ ¬ (now + ex < now1) →
  negb (ex =? 0) && (now + ex <? now1) = false.
Proof.
  intros [->|Hn]; [done|].
  rewrite (proj2 (Z.ltb_ge _ _)) by lia. apply andb_false_r.
Qed.

(** X11. A [Get] that misses runs the loader; when the loader succeeds the
    value is cached: a later [Get] of the key, before the time-to-live
    elapses and with a limit other than 1, returns that value with status 0
    and does not run the loader again. *)
Theorem Get_miss_then_cached c k f v env now now' now1 now2 race race' :
  wf c →
  data c !! k = None →
  g_m c !! k = None →
  upfunc c = Some f →
  f k (upenv c) = ((v, 0), env) →
  maxKeyCount c ≠ 1 →
  expire c = 0 ∨ ¬ (now + expire c < now1) →
  ∃ r1 r2,
    Get c k now now' race = Some r1 ∧ got r1 = (Some v, 0) ∧
    upenv (after r1) = env ∧
    Get (after r1) k now1 now2 race' = Some r2 ∧ got r2 = (Some v, 0) ∧
    upenv (after r2) = env ∧ spawned r2 = None.
Proof.
  intros Hwf Hd Hg Hup Hf Hne Hfresh.
  destruct (config_Put c k v now) as (HE & HU & _).
  pose proof (fresh_cond _ _ _ Hfresh) as Hc.
  unfold Get at 1, getData. rewrite Hd, Hup, Hg.
  rewrite (getData_lead_spec c k f v 0 env now Hup Hf).
  eexists. simpl after. simpl got.
  edestruct (Get_entry
    (set_group (Put c k v now) env (delete k (g_m c))
       (<[next_call c := mkCall true (Some v) 0]> (calls c))
       (S (next_call c))) k (mkValue k v now) now1 now2 race')
    as (r2 & Hr2 & _ & _ & Hf2).
  { change (entry (Put c k v now) k = Some (mkValue k v now)).
    by apply entry_Put_same. }
  exists r2. unfold expired in Hf2. simpl in Hf2. rewrite HE in Hf2.
  destruct (Hf2 Hc) as (Hg2 & Hs2 & He2). by split_and!.
Qed.

(** X12. When the loader fails on a miss, [Get] returns its pair, nothing is
    stored and no call stays registered, so the next [Get] of the key runs
    the loader again and returns what it then yields. *)
Theorem Get_miss_failure_retried c k f v st env v' st' env' now now'
    race race' :
  data c !! k = None →
  g_m c !! k = None →
  upfunc c = Some f →
  f k (upenv c) = ((v, st), env) →
  st ≠ 0 →
  f k env = ((v', st'), env') →
  ∃ r1 r2,
    Get c k now now race = Some r1 ∧ got r1 = (Some v, st) ∧
    store (after r1) = store c ∧
    Get (after r1) k now' now' race' = Some r2 ∧ got r2 = (Some v', st') ∧
    upenv (after r2) = env'.
Proof.
  intros Hd Hg Hup Hf Hst Hf'.
  unfold Get at 1, getData. rewrite Hd, Hup, Hg.
  rewrite (getData_lead_spec c k f v st env now Hup Hf).
  rewrite (proj2 (Z.eqb_neq _ _) Hst).
  eexists. eexists. split; [done|]. simpl after. simpl got.
  split; [done|]. split; [done|].
  unfold Get, getData. simpl data. simpl upfunc. simpl g_m.
  rewrite Hd, Hup, lookup_delete_eq.
  erewrite getData_lead_spec; [|exact Hup|exact Hf'].
  split; [done|]. split; [done|]. done.
Qed.

(** X13. The grace window: a [Get] that finds an expired entry with a loader
    configured, and returns before the refresh it starts has run, returns
    the stale value and moves the heartbeat forward by three seconds.  Until
    that heartbeat plus the time-to-live has passed, a further [Get] of the
    key starts no second refresh and returns status 0.  Its value is the
    same stale one as long as the refresh has not run, and also once it has
    run and its loader failed; once the refresh has run and its loader
    succeeded it is the loader's value (store invariant, limit other than 1,
    time-to-live not elapsed since the write-back). *)
Theorem grace_window c k v f now1 now2 now3 now4 race :
  entry c k = Some v →
  expire c ≠ 0 →
  upfunc c = Some f →
  heartbeat v + expire c < now1 →
  heartbeat v + expire c < now2 →
  ¬ (heartbeat v + 3 * Second + expire c < now3) →
  ∃ r1,
    Get c k now1 now2 None = Some r1 ∧ got r1 = (Some (value v), 0) ∧
    spawned r1 = Some k ∧
    (∃ r2, Get (after r1) k now3 now4 race = Some r2 ∧
           got r2 = (Some (value v), 0) ∧
           spawned r2 = None ∧ upenv (after r2) = upenv c) ∧
    (∀ t, wf c → maxKeyCount c ≠ 1 →
          ((f k (upenv c)).1.2 = 0 → ¬ (t + expire c < now3)) →
          ∃ r2, Get (upValue (after r1) k t) k now3 now4 race = Some r2 ∧
                got r2 = (Some (if (f k (upenv c)).1.2 =? 0
                                then (f k (upenv c)).1.1
                                else value v), 0) ∧
                spawned r2 = None ∧
                upenv (after r2) = (f k (upenv c)).2).
Proof.
  intros Hent Hexp Hup H1 H2 H3.
  pose proof Hent as (e & He & Hv)%entry_Some.
  rewrite (Get_refresh c k e v f now1 now2 None) by done.
  unfold expired at 1. rewrite (proj2 (Z.ltb_lt _ _) H2).
  eexists. split; [done|]. simpl got. simpl spawned. simpl after.
  split; [done|]. split; [done|].
  assert (Hb : entry (Get_bump c e v) k
               = Some (mkValue (key v) (value v) (heartbeat v + Second * 3))).
  { unfold entry. change (data (Get_bump c e v)) with (data c).
    rewrite He. simpl. by rewrite lookup_insert_eq. }
  assert (Hfresh : ∀ c', expire c' = expire c →
            negb (expire c' =? 0)
            && expired c' (mkValue (key v) (value v)
                             (heartbeat v + Second * 3)) now3 = false).
  { intros c' HE. unfold expired. rewrite HE. simpl.
    rewrite (proj2 (Z.ltb_ge _ _)) by (unfold Second in *; lia).
    apply andb_false_r. }
  split.
  - destruct (Get_entry (Get_bump c e v) k _ now3 now4 race Hb)
      as (r2 & Hr2 & _ & _ & Hf2).
    exists r2. split; [done|]. by apply Hf2, Hfresh.
  - intros t Hwf Hne Ht. unfold upValue.
    change (upfunc (Get_bump c e v)) with (upfunc c).
    change (upenv (Get_bump c e v)) with (upenv c). rewrite Hup.
    destruct (f k (upenv c)) as [[v' st] env] eqn:Hf. simpl in Ht |- *.
    destruct (st =? 0) eqn:Hst.
    + apply Z.eqb_eq in Hst. rewrite Put_set_group.
      assert (Hwf1 : wf (Get_bump c e v)) by by apply wf_bump.
      destruct (config_Put (Get_bump c e v) k v' t) as (HE & _ & _).
      edestruct (Get_entry
        (set_group (Put (Get_bump c e v) k v' t) env
           (g_m (Get_bump c e v)) (calls (Get_bump c e v))
           (next_call (Get_bump c e v)))
        k (mkValue k v' t) now3 now4 race) as (r2 & Hr2 & _ & _ & Hf2).
      { change (entry (Put (Get_bump c e v) k v' t) k
                = Some (mkValue k v' t)).
        by apply entry_Put_same. }
      exists r2. split; [done|]. apply Hf2.
      unfold expired. simpl. rewrite HE. simpl.
      rewrite (proj2 (Z.ltb_ge _ _)) by (specialize (Ht Hst); lia).
      apply andb_false_r.
    + edestruct (Get_entry
        (set_group (Get_bump c e v) env
           (g_m (Get_bump c e v)) (calls (Get_bump c e v))
           (next_call (Get_bump c e v)))
        k _ now3 now4 race Hb) as (r2 & Hr2 & _ & _ & Hf2).
      exists r2. split; [done|]. by apply Hf2, Hfresh.
Qed.

(** X14. When the refresh goroutine has run and its loader succeeded, a [Get]
    of the key returns the loader's value with status 0 (limit other than 1,
    time-to-live not elapsed since the write-back). *)
Theorem refresh_then_Get c k f v env now now1 now2 race :
  wf c →
  upfunc c = Some f →
  f k (upenv c) = ((v, 0), env) →
  maxKeyCount c ≠ 1 →
  expire c = 0 ∨ ¬ (now + expire c < now1) →
  ∃ r, Get (upValue c k now) k now1 now2 race = Some r ∧
       got r = (Some v, 0) ∧ spawned r = None ∧ upenv (after r) = env.
Proof.
  intros Hwf Hup Hf Hne Hfresh.
  destruct (config_Put c k v now) as (HE & HU & _).
  pose proof (fresh_cond _ _ _ Hfresh) as Hc.
  unfold upValue. rewrite Hup, Hf. simpl. rewrite Put_set_group.
  edestruct (Get_entry
    (set_group (Put c k v now) env (g_m c) (calls c) (next_call c))
    k (mkValue k v now) now1 now2 race) as (r & Hr & _ & _ & Hfr).
  { change (entry (Put c k v now) k = Some (mkValue k v now)).
    by apply entry_Put_same. }
  exists r. unfold expired in Hfr. simpl in Hfr. rewrite HE in Hfr.
  destruct (Hfr Hc) as (Hg & Hs & He). by split_and!.
Qed.

(** ** The sweeping goroutine *)

Lemma SetClearInterval_fold (ds : list Z) : ∀ c (n : nat),
  interval c = 0 ∨ Second ≤ interval c →
  let r := foldl (λ cn d, let '(c', b) := SetClearInterval cn.1 d in
                          (c', if b then S cn.2 else cn.2)) (c, n) ds in
  r.2 = (n + if (interval c =? 0)%Z
                  && existsb (λ d, (Second <=? d)%Z) ds
             then 1 else 0)%nat ∧
  store r.1 = store c ∧ (interval r.1 = 0 ∨ Second ≤ interval r.1).
Proof.
  induction ds as [|d ds IH]; intros c n Hinv.
  - simpl. rewrite andb_false_r. split_and!; [lia|done|done].
  - cbn [foldl existsb fst snd].
    destruct (SetClearInterval c d) as [c' b] eqn:Hs.
    unfold SetClearInterval in Hs. destruct (d <? Second) eqn:Hd.
    + injection Hs as <- <-. apply Z.ltb_lt in Hd.
      rewrite (proj2 (Z.leb_gt _ _)) by lia. by apply IH.
    + injection Hs as <- <-. apply Z.ltb_ge in Hd.
      rewrite (proj2 (Z.leb_le _ _)) by lia.
      rewrite orb_true_l, andb_true_r.
      match goal with
      | |- context [foldl _ (?c1, ?n1) ds] =>
          destruct (IH c1 n1) as (E1 & E2 & E3); [right; simpl; lia|]
      end.
      cbn zeta in E1, E2, E3. simpl interval in E1.
      rewrite (proj2 (Z.eqb_neq d 0)) in E1 by (unfold Second in Hd; lia).
      split_and!; [|exact E2|exact E3].
      rewrite E1. simpl. destruct (interval c =? 0); lia.
Qed.

(** X15. Whatever intervals [SetClearInterval] is called with, one after the
    other, on a cache whose interval is 0 or at least a second: the sweeping
    goroutine is started once if the interval was 0 and some call passes at
    least a second, and not at all otherwise; the store is untouched and the
    interval stays 0 or at least a second. *)
Theorem SetClearInterval_starts_once c ds :
  interval c = 0 ∨ Second ≤ interval c →
  (SetClearInterval_all c ds).2
    = (if (interval c =? 0) && existsb (λ d, Second <=? d) ds
       then 1%nat else 0%nat) ∧
  store (SetClearInterval_all c ds).1 = store c ∧
  (interval (SetClearInterval_all c ds).1 = 0 ∨
   Second ≤ interval (SetClearInterval_all c ds).1).
Proof.
  intros Hinv. destruct (SetClearInterval_fold ds c O Hinv) as (E1 & E2 & E3).
  split_and!; [|exact E2|exact E3].
  unfold SetClearInterval_all. rewrite E1. done.
Qed.

End Behaviour.

(** * Calls in flight, under every schedule *)

Section Flights.

Context {K : Type} `{Countable K} {V LS : Type}.
Implicit Types (c : Cache (K:=K) (V:=V) (LS:=LS)).
Implicit Types (m : machine (K:=K) (V:=V) (LS:=LS)).
Implicit Types (p q : pc (V:=V)) (ts : list (pc (V:=V))).

Lemma g_m_getData_load c k cid : g_m (getData_load c k cid) = g_m c.
Proof.
  unfold getData_load. destruct (upfunc c) as [f|]; [|done].
  by destruct (f k (upenv c)) as [[v e] env].
Qed.

Lemma g_m_getData_put c k cid now : g_m (getData_put c k cid now) = g_m c.
Proof.
  unfold getData_put. destruct (_ =? 0); [|done].
  destruct (val _) as [v|]; [|done].
  by destruct (Put_set_store c k v now) as (l & h & n & d & ->).
Qed.

(** A goroutine that leads no call moves to a point where it leads none,
    the tracking map being as before. *)
Lemma one_in_flight_other k m c' j p p' n :
  one_in_flight k m →
  threads m !! j = Some p → leading p = None → leading p' = None →
  g_m c' = g_m (shared m) →
  one_in_flight k (mkMachine c' (<[j := p']> (threads m)) n).
Proof.
  unfold one_in_flight. simpl. intros Hinv Hj Hp Hp' ->.
  destruct (g_m (shared m) !! k) as [cid|].
  - destruct Hinv as (i & q & Hi & Hq & Hothers).
    assert (j ≠ i) by (intros ->; congruence).
    exists i, q. split_and!; [by rewrite list_lookup_insert_ne|done|].
    intros j' q' Hne Hl. destruct (decide (j = j')) as [->|Hjj].
    + apply list_lookup_insert_Some in Hl as [(_ & <- & _)|(? & _)]; done.
    + rewrite list_lookup_insert_ne in Hl by done. eauto.
  - intros q [j' Hl]%list_elem_of_lookup.
    destruct (decide (j = j')) as [->|Hjj].
    + apply list_lookup_insert_Some in Hl as [(_ & <- & _)|(? & _)]; done.
    + rewrite list_lookup_insert_ne in Hl by done.
      eapply Hinv, list_elem_of_lookup_2; eauto.
Qed.

(** The goroutine that leads the call moves on with it. *)
Lemma one_in_flight_lead k m c' j p p' n cid :
  one_in_flight k m →
  threads m !! j = Some p → leading p = Some cid → leading p' = Some cid →
  g_m c' = g_m (shared m) →
  one_in_flight k (mkMachine c' (<[j := p']> (threads m)) n).
Proof.
  unfold one_in_flight. simpl. intros Hinv Hj Hp Hp' ->.
  pose proof (lookup_lt_Some _ _ _ Hj) as Hlen.
  destruct (g_m (shared m) !! k) as [cid'|].
  - destruct Hinv as (i & q & Hi & Hq & Hothers).
    destruct (decide (j = i)) as [->|Hji];
      [|by rewrite (Hothers j p Hji Hj) in Hp].
    assert (q = p) by congruence. subst q.
    exists i, p'. split_and!; [by apply list_lookup_insert_eq|congruence|].
    intros j' q' Hne Hl. rewrite list_lookup_insert_ne in Hl by done. eauto.
  - rewrite (Hinv p) in Hp; [done|]. eapply list_elem_of_lookup_2; eauto.
Qed.

Lemma one_in_flight_step k m tn :
  one_in_flight k m → one_in_flight k (sched_step k m tn).
Proof.
  intros Hinv. destruct tn as [j now]. unfold sched_step. simpl.
  destruct (threads m !! j) as [p|] eqn:Hj; [|done].
  pose proof (lookup_lt_Some _ _ _ Hj) as Hlen.
  destruct p as [|cid|cid|cid|cid|cid|r]; simpl.
  - destruct (g_m (shared m) !! k) as [cid|] eqn:Hg.
    + by eapply one_in_flight_other.
    + simpl. unfold one_in_flight in *. simpl. rewrite Hg in Hinv.
      rewrite lookup_insert_eq.
      exists j, (AtLoad (next_call (shared m))).
      split_and!; [by apply list_lookup_insert_eq|done|].
      intros j' q Hne Hl. rewrite list_lookup_insert_ne in Hl by done.
      eapply Hinv, list_elem_of_lookup_2; eauto.
  - destruct (wg_done _); [|done]. by eapply one_in_flight_other.
  - eapply one_in_flight_lead; eauto. apply g_m_getData_load.
  - eapply one_in_flight_lead; eauto. apply g_m_getData_put.
  - by eapply one_in_flight_lead.
  - unfold one_in_flight in *. simpl. rewrite lookup_delete_eq.
    destruct (g_m (shared m) !! k) as [cid'|].
    + destruct Hinv as (i & q & Hi & Hq & Hothers).
      destruct (decide (j = i)) as [->|Hji];
        [|by specialize (Hothers j _ Hji Hj)].
      intros q' [j' Hl]%list_elem_of_lookup.
      destruct (decide (i = j')) as [->|Hjj].
      * apply list_lookup_insert_Some in Hl as [(_ & <- & _)|(? & _)]; done.
      * rewrite list_lookup_insert_ne in Hl by done. eauto.
    + by specialize (Hinv _ (list_elem_of_lookup_2 _ _ _ Hj)).
  - done.
Qed.

(** X16. Under every schedule of goroutines calling [getData] for a key with
    no call in flight at the start, at most one goroutine at a time works on
    a call for the key (between registering it and removing it from [g.m],
    which includes running the loader), and [g.m] tracks that very call. *)
Theorem at_most_one_in_flight c0 k n s i j p q :
  g_m c0 !! k = None →
  threads (run k (start c0 n) s) !! i = Some p →
  threads (run k (start c0 n) s) !! j = Some q →
  is_Some (leading p) →
  is_Some (leading q) →
  i = j ∧ g_m (shared (run k (start c0 n) s)) !! k = leading p.
Proof.
  intros Hg Hi Hj [cp Hp] [cq Hq].
  assert (Hinv : one_in_flight k (run k (start c0 n) s)).
  { assert (H0 : one_in_flight k (start c0 n)).
    { unfold one_in_flight. simpl. rewrite Hg.
      intros p' Hp'. by apply elem_of_replicate in Hp' as [-> _]. }
    clear -H0. revert H0. generalize (start c0 n).
    induction s as [|tn s IH]; intros m Hm; [done|].
    simpl. by apply IH, one_in_flight_step. }
  unfold one_in_flight in Hinv.
  destruct (g_m (shared (run k (start c0 n) s)) !! k) as [cid|].
  - destruct Hinv as (i0 & p0 & Hi0 & Hp0 & Hothers).
    destruct (decide (i = i0)) as [->|Hne];
      [|by rewrite (Hothers i p Hne Hi) in Hp].
    destruct (decide (j = i0)) as [->|Hne];
      [|by rewrite (Hothers j q Hne Hj) in Hq].
    split; [done|]. congruence.
  - rewrite (Hinv p) in Hp; [done|]. eapply list_elem_of_lookup_2; eauto.
Qed.

Lemma may_load_insert ts : ∀ j p p',
  ts !! j = Some p →
  (may_load (<[j := p']> ts) + may_load [p] = may_load ts + may_load [p'])%nat.
Proof.
  induction ts as [|q ts IH]; intros [|j] p p' Hj; simpl in *; try done.
  - injection Hj as ->. destruct p, p'; simpl; lia.
  - specialize (IH j p p' Hj). simpl in IH. destruct q; simpl; lia.
Qed.

Lemma thread_step_may_load k now c p c' p' n :
  thread_step k now c p = Some (c', p', n) →
  (n + may_load [p'] ≤ may_load [p])%nat.
Proof.
  destruct p; simpl.
  - destruct (g_m c !! k); intros [= <- <- <-]; simpl; lia.
  - destruct (wg_done _); [|done]. intros [= <- <- <-]. simpl. lia.
  - intros [= <- <- <-]. simpl. lia.
  - intros [= <- <- <-]. simpl. lia.
  - intros [= <- <- <-]. simpl. lia.
  - intros [= <- <- <-]. simpl. lia.
  - done.
Qed.

(** X17. Under every schedule, [n] goroutines calling [getData] run the
    loader at most [n] times in all: each runs it at most once, and those
    that found a call in flight never run it. *)
Theorem loads_at_most_callers c0 k n s :
  (loads (run k (start c0 n) s)
   + may_load (threads (run k (start c0 n) s)) ≤ n)%nat.
Proof.
  assert (H0 : (loads (start c0 n) + may_load (threads (start c0 n)) ≤ n)%nat).
  { simpl. induction n as [|n IH]; simpl; lia. }
  revert H0. generalize (start c0 n).
  induction s as [|tn s IH]; intros m Hm; [done|].
  simpl. apply IH. unfold sched_step.
  destruct (threads m !! tn.1) as [p|] eqn:Hj; [|done].
  destruct (thread_step k tn.2 (shared m) p) as [[[c' p'] n']|] eqn:Hs;
    [|done].
  simpl. pose proof (may_load_insert _ _ _ p' Hj).
  pose proof (thread_step_may_load _ _ _ _ _ _ _ Hs). lia.
Qed.

End Flights.

(** * The further properties on concrete caches *)

Lemma wf_demo_ttl : wf demo_ttl.
Proof. apply (wf_store (New O)); [done|]. apply wf_New. Qed.

Lemma wf_demo_limit_three : wf demo_limit_three.
Proof. apply (wf_store (New O)); [done|]. apply wf_New. Qed.

Lemma wf_demo_empty_loader : wf demo_empty_loader.
Proof. apply (wf_store (New O)); [done|]. apply wf_New. Qed.

(** One key put into a new cache with a limit of three. *)
Lemma used_one_to_one_witness :
  used (New O) demo_room ∧
  NoDup (keys_by_recency demo_room) ∧
  Len demo_room = Z.of_nat (length (keys_by_recency demo_room)).
Proof.
  assert (Hu : used (New O) demo_room).
  { apply (used_op _ _ (OpPut "a" "1" 0)), used_SetMaxKeyCount, used_start. }
  split; [exact Hu|].
  destruct (used_one_to_one O demo_room Hu) as (_ & Hnd & Hlen & _).
  by split.
Defined.

(** A third key put into the full cache of limit 2: the last key goes. *)
Lemma Put_recency_witness :
  wf demo_full ∧
  0 < maxKeyCount demo_full ∧
  maxKeyCount demo_full
    ≤ Z.of_nat (S (length (filter (λ k', k' ≠ "c")
                             (keys_by_recency demo_full)))) ∧
  ∃ victim,
    "c" :: filter (λ k', k' ≠ "c") (keys_by_recency demo_full)
      = keys_by_recency (Put demo_full "c" "3" 5) ++ [victim].
Proof.
  split_and!; [apply wf_demo_full|by vm_compute..|].
  destruct (Put_recency demo_full "c" "3" 5 wf_demo_full) as [Hev _].
  destruct Hev as (victim & Hk & _); [split; by vm_compute|].
  by exists victim.
Defined.

(** [Get] of the key of a cache without time-to-live. *)
Lemma Get_fresh_hit_witness :
  wf demo_room ∧
  entry demo_room "a" = Some (mkValue "a" "1" 0) ∧
  expire demo_room = 0 ∧
  ∃ r, Get demo_room "a" 7 7 None = Some r ∧ got r = (Some "1", 0).
Proof.
  split_and!; [apply wf_demo_room|by vm_compute..|].
  destruct (Get_fresh_hit demo_room "a" (mkValue "a" "1" 0) 7 7 None)
    as (r & Hr & Hg & _);
    [apply wf_demo_room|by vm_compute|left; by vm_compute|].
  by exists r.
Defined.

(** [Del] of a key of the cache holding a and b. *)
Lemma Del_removes_witness :
  wf demo_full ∧ entry (Del demo_full "a") "a" = None ∧
  Len (Del demo_full "a") = Len demo_full - 1.
Proof.
  split; [apply wf_demo_full|].
  destruct (Del_removes demo_full "a" wf_demo_full)
    as (Hgone & _ & _ & Hlen & _).
  split; [exact Hgone|]. rewrite Hlen. by vm_compute.
Defined.

(** [Clear] of the cache holding a and b, then a [Get] of a. *)
Lemma Clear_empties_witness :
  Len (Clear demo_full) = 0 ∧
  entry (Clear demo_full) "a" = None ∧
  upfunc demo_full = None ∧
  Get (Clear demo_full) "a" 7 7 None
    = Some (mkGet (None, -1) (Clear demo_full) None).
Proof.
  destruct (Clear_empties demo_full) as (Hlen & _ & Hent & Hget).
  split_and!; [exact Hlen|exact (Hent "a")|by vm_compute|].
  apply Hget. by vm_compute.
Defined.

(** [Put] then [Get] two seconds later, with a time-to-live of one second.
    With no loader the value comes back with status -1.  With the loader of
    the tests, and the refresh run before the [Get] reads the value, the
    loader's value comes back with status 0. *)
Lemma Put_Get_value_witness :
  wf demo_ttl ∧ maxKeyCount demo_ttl ≠ 1 ∧
  wf demo_empty_loader ∧ maxKeyCount demo_empty_loader ≠ 1 ∧
  (∃ r, Get (Put demo_ttl "a" "1" 0) "a" 2000000000 2000000000 None
          = Some r ∧
        got r = (Some "1", -1)) ∧
  (∃ r, Get (Put demo_empty_loader "a" "1" 0) "a" 2000000000 2000000000
            (Some 2000000001) = Some r ∧
        got r = (Some "a_value", 0)).
Proof.
  split_and!;
    [apply wf_demo_ttl|by vm_compute|apply wf_demo_empty_loader
    |by vm_compute| |].
  - destruct (Put_Get_value demo_ttl "a" "1" 0 2000000000 2000000000 None)
      as (r & Hr & Hst & Hval); [apply wf_demo_ttl|by vm_compute|].
    exists r. split; [exact Hr|].
    rewrite (surjective_pairing (got r)), Hst, Hval. by vm_compute.
  - destruct (Put_Get_value demo_empty_loader "a" "1" 0 2000000000
                2000000000 (Some 2000000001))
      as (r & Hr & Hst & Hval); [apply wf_demo_empty_loader|by vm_compute|].
    exists r. split; [exact Hr|].
    rewrite (surjective_pairing (got r)), Hst, Hval. by vm_compute.
Defined.

(** A third key put into the full cache of limit 2. *)
Lemma Put_frame_witness :
  wf demo_full ∧
  (entry (Put demo_full "c" "3" 5) "a" = entry demo_full "a" ∨
   entry (Put demo_full "c" "3" 5) "a" = None).
Proof.
  split; [apply wf_demo_full|].
  destruct (Put_frame demo_full "c" "3" 5 wf_demo_full) as [Hother _].
  apply Hother. by vm_compute.
Defined.

(** [Get] of an absent key, no loader. *)
Lemma Get_without_loader_witness :
  wf demo_room ∧ upfunc demo_room = None ∧
  ∃ r, Get demo_room "b" 7 7 None = Some r ∧
       data (after r) = data demo_room.
Proof.
  split_and!; [apply wf_demo_room|by vm_compute|].
  destruct (Get_without_loader demo_room "b" 7 7 None)
    as (r & Hr & _ & _ & Hd & _); [apply wf_demo_room|by vm_compute|].
  by exists r.
Defined.

(** A sweep at time 6 over entries written at 0 and 1, living 5 ns. *)
Lemma clearExpired_entries_witness :
  wf demo_sweep ∧ expire demo_sweep ≠ 0 ∧
  entry (clearExpired (map_to_list (data demo_sweep)) demo_sweep 6) "a" = None ∧
  entry (clearExpired (map_to_list (data demo_sweep)) demo_sweep 6) "b"
    = Some (mkValue "b" "2" 1).
Proof.
  split_and!; [apply wf_demo_sweep|by vm_compute| |].
  - destruct (clearExpired_entries demo_sweep
                (map_to_list (data demo_sweep)) 6 "a") as [Heq _];
      [apply wf_demo_sweep|done|by vm_compute|].
    rewrite Heq. by vm_compute.
  - destruct (clearExpired_entries demo_sweep
                (map_to_list (data demo_sweep)) 6 "b") as [Heq _];
      [apply wf_demo_sweep|done|by vm_compute|].
    rewrite Heq. by vm_compute.
Defined.

(** The same sweep, run twice. *)
Lemma clearExpired_idempotent_witness :
  wf demo_sweep ∧
  clearExpired
    (map_to_list
       (data (clearExpired (map_to_list (data demo_sweep)) demo_sweep 6)))
    (clearExpired (map_to_list (data demo_sweep)) demo_sweep 6) 6
  = clearExpired (map_to_list (data demo_sweep)) demo_sweep 6.
Proof.
  split; [apply wf_demo_sweep|].
  apply clearExpired_idempotent; [apply wf_demo_sweep|done|done].
Defined.

(** A miss on k with the loader of the tests, then a second [Get]. *)
Lemma Get_miss_then_cached_witness :
  wf demo_empty_loader ∧
  data demo_empty_loader !! "k" = None ∧
  g_m demo_empty_loader !! "k" = None ∧
  upfunc demo_empty_loader = Some GetDataSucc ∧
  GetDataSucc "k" (upenv demo_empty_loader) = (("k_value", 0), 1%nat) ∧
  ∃ r1 r2,
    Get demo_empty_loader "k" 0 0 None = Some r1 ∧
    got r1 = (Some "k_value", 0) ∧
    Get (after r1) "k" 5 5 None = Some r2 ∧ got r2 = (Some "k_value", 0) ∧
    upenv (after r2) = 1%nat.
Proof.
  split_and!; [apply wf_demo_empty_loader|by vm_compute..|].
  destruct (Get_miss_then_cached demo_empty_loader "k" GetDataSucc
              "k_value" 1%nat 0 0 5 5 None None)
    as (r1 & r2 & H1 & H2 & _ & H3 & H4 & H5 & _);
    [apply wf_demo_empty_loader|by vm_compute..|right; by vm_compute|].
  by exists r1, r2.
Defined.

(** Two misses on k with a loader that fails. *)
Lemma Get_miss_failure_retried_witness :
  data demo_failing !! "k" = None ∧
  g_m demo_failing !! "k" = None ∧
  upfunc demo_failing = Some GetDataFail ∧
  ∃ r1 r2,
    Get demo_failing "k" 0 0 None = Some r1 ∧
    got r1 = (Some "not get", 1) ∧
    Get (after r1) "k" 5 5 None = Some r2 ∧ upenv (after r2) = 2%nat.
Proof.
  split_and!; [by vm_compute..|].
  destruct (Get_miss_failure_retried demo_failing "k" GetDataFail
              "not get" 1 1%nat "not get" 1 2%nat 0 5 None None)
    as (r1 & r2 & H1 & H2 & _ & H3 & _ & H4); [by vm_compute..|].
  by exists r1, r2.
Defined.

(** Two [Get]s, 1.5 s and 2 s after the [Put], time-to-live 1 s: the second
    one before the refresh has run, and after it has run at 1.6 s. *)
Lemma grace_window_witness :
  entry demo_loader "a" = Some (mkValue "a" "1" 0) ∧
  expire demo_loader ≠ 0 ∧
  upfunc demo_loader = Some GetDataSucc ∧
  ∃ r1,
    Get demo_loader "a" 1500000000 1500000000 None = Some r1 ∧
    got r1 = (Some "1", 0) ∧ spawned r1 = Some "a" ∧
    (∃ r2, Get (after r1) "a" 2000000000 2000000000 None = Some r2 ∧
           got r2 = (Some "1", 0) ∧ spawned r2 = None) ∧
    (∃ r2, Get (upValue (after r1) "a" 1600000000) "a"
               2000000000 2000000000 None = Some r2 ∧
           got r2 = (Some "a_value", 0) ∧ spawned r2 = None).
Proof.
  split_and!; [by vm_compute..|].
  destruct (grace_window demo_loader "a" (mkValue "a" "1" 0) GetDataSucc
              1500000000 1500000000 2000000000 2000000000 None)
    as (r1 & H1 & Hg1 & Hs1 & (r2 & H2 & Hg2 & Hs2 & _) & Hlater);
    [by vm_compute..|].
  destruct (Hlater 1600000000) as (r3 & H3 & Hg3 & Hs3 & _);
    [apply wf_demo_loader|by vm_compute|intros _; by vm_compute|].
  exists r1. split_and!; [exact H1|exact Hg1|exact Hs1| |].
  - exists r2. by split_and!.
  - exists r3. split_and!; [exact H3|exact Hg3|exact Hs3].
Defined.

(** The refresh of a written back at 1.6 s, then a [Get] at 2 s. *)
Lemma refresh_then_Get_witness :
  wf demo_loader ∧
  upfunc demo_loader = Some GetDataSucc ∧
  GetDataSucc "a" (upenv demo_loader) = (("a_value", 0), 1%nat) ∧
  maxKeyCount demo_loader ≠ 1 ∧
  ∃ r, Get (upValue demo_loader "a" 1600000000) "a" 2000000000 2000000000
           None = Some r ∧
       got r = (Some "a_value", 0).
Proof.
  split_and!; [apply wf_demo_loader|by vm_compute..|].
  destruct (refresh_then_Get demo_loader "a" GetDataSucc "a_value" 1%nat
              1600000000 2000000000 2000000000 None)
    as (r & Hr & Hg & _);
    [apply wf_demo_loader|by vm_compute..|right; by vm_compute|].
  by exists r.
Defined.

(** Half a second, two seconds, three seconds on a new cache. *)
Lemma SetClearInterval_starts_once_witness :
  interval (New (K:=string) (V:=string) O) = 0 ∧
  (SetClearInterval_all (New (K:=string) (V:=string) O)
     [500000000; 2000000000; 3000000000]).2 = 1%nat.
Proof.
  split; [done|].
  destruct (SetClearInterval_starts_once (New (K:=string) (V:=string) O)
              [500000000; 2000000000; 3000000000]) as (Hn & _);
    [by left|].
  rewrite Hn. by vm_compute.
Defined.

(** Three goroutines after the first one has registered its call. *)
Lemma at_most_one_in_flight_witness :
  g_m demo_once !! "k" = None ∧
  threads (run "k" (start demo_once 3) [(0%nat, 1)]) !! 0%nat
    = Some (AtLoad 0) ∧
  g_m (shared (run "k" (start demo_once 3) [(0%nat, 1)])) !! "k" = Some 0%nat.
Proof.
  split_and!; [by vm_compute..|].
  destruct (at_most_one_in_flight demo_once "k" 3 [(0%nat, 1)] 0%nat 0%nat
              (AtLoad 0) (AtLoad 0)) as [_ Hg];
    [by vm_compute..|by eexists|by eexists|].
  exact Hg.
Defined.

(** One key put into a new cache with a limit of three. *)
Lemma reachable_limit_witness :
  wf demo_limit_three ∧
  0 < maxKeyCount demo_limit_three ∧
  Len demo_limit_three ≤ maxKeyCount demo_limit_three ∧
  reachable demo_limit_three demo_room ∧
  Len demo_room ≤ maxKeyCount demo_limit_three.
Proof.
  assert (Hr : reachable demo_limit_three demo_room).
  { apply (reach_op _ _ (OpPut "a" "1" 0)), reach_start. }
  split_and!; [apply wf_demo_limit_three|by vm_compute..|exact Hr|].
  destruct (reachable_limit demo_limit_three demo_room)
    as (_ & _ & Hlen); [apply wf_demo_limit_three|by vm_compute..|exact Hr|].
  exact Hlen.
Defined.
